(** * Request/response multiplexing of strymon-core, shallow embedding

    Sources: [strymon_communication/src/rpc.rs], [coordinator/dispatch.rs],
    [network/mod.rs].  The message frame ([MessageBuf]) lives in the
    [message] module, which is not part of the sources at hand; it is
    modelled from the specification (section 4.1). *)

From Stdlib Require Import ZArith Lia.
From stdpp Require Import base gmap list strings.
From Stdlib Require Import Ascii.

Set Warnings "-register-all".
Open Scope Z_scope.

(* ------------------------------------------------------------------ *)
(** ** Rust results, panics and I/O errors *)

Inductive result (A E : Type) : Type :=
| Ok (a : A)
| Err (e : E).
Arguments Ok {A E} a.
Arguments Err {A E} e.

(** [std::io::ErrorKind], the kinds the modelled code produces. *)
Inductive ErrorKind : Type :=
| InvalidData
| Other
| UnexpectedEof
| ConnectionReset.

Record io_error : Type := mk_io_error {
  err_kind : ErrorKind;
  err_msg : string
}.

(** Outcome of a call that may panic ([unwrap], [expect]). *)
Inductive outcome (A : Type) : Type :=
| Returned (a : A)
| Panicked (msg : string).
Arguments Returned {A} a.
Arguments Panicked {A} msg.

Definition unwrap {A E : Type} (r : result A E) : outcome A :=
  match r with
  | Ok a => Returned a
  | Err _ => Panicked "called `Result::unwrap()` on an `Err` value"
  end.

Definition obind {A B : Type} (o : outcome A) (k : A -> outcome B) : outcome B :=
  match o with
  | Returned a => k a
  | Panicked m => Panicked m
  end.

Notation "'try!' x := a 'in' b" := (obind a (fun x => b))
  (at level 200, x name, a at level 100, b at level 200).

(* ------------------------------------------------------------------ *)
(** ** Serialized values and the message frame *)

(** Values as serde sees them.  [VUnencodable] stands for a value whose
    [Serialize] implementation reports an error. *)
Inductive value : Type :=
| VU8 (n : Z)
| VU32 (n : Z)
| VU64 (n : Z)
| VI32 (n : Z)
| VStr (s : string)
| VUnit
| VOk (v : value)
| VErr (v : value)
| VStruct (name : string) (fields : list value)
| VUnencodable.

(** Rust types of the values popped from a frame. *)
Inductive ty : Type :=
| TU8 | TU32 | TU64 | TI32 | TStr | TUnit
| TResult (s e : ty)
| TStruct (name : string).

Fixpoint has_ty (v : value) (t : ty) : bool :=
  match v, t with
  | VU8 n, TU8 => bool_decide (0 <= n < 256)
  | VU32 n, TU32 => bool_decide (0 <= n < 2 ^ 32)
  | VU64 n, TU64 => bool_decide (0 <= n < 2 ^ 64)
  | VI32 n, TI32 => bool_decide (- 2 ^ 31 <= n < 2 ^ 31)
  | VStr _, TStr => true
  | VUnit, TUnit => true
  | VOk v, TResult s _ => has_ty v s
  | VErr v, TResult _ e => has_ty v e
  | VStruct n _, TStruct n' => String.eqb n n'
  | _, _ => false
  end.

Fixpoint serializable (v : value) : bool :=
  match v with
  | VUnencodable => false
  | VOk v | VErr v => serializable v
  | VStruct _ fs => forallb serializable fs
  | _ => true
  end.

(** Modelled from the spec: [MessageBuf] (module [message], not in the
    sources).  A frame is an ordered sequence of typed sections; [push]
    serializes at the tail and fails when serialization fails, [pop]
    reads the head and fails when it is absent or of another type. *)
Abbreviation MessageBuf := (list value) (only parsing).

Definition MessageBuf_empty : MessageBuf := [].

Definition encoding_error : io_error := mk_io_error Other "encoding error".
Definition decoding_error : io_error := mk_io_error InvalidData "decoding error".

Definition push (m : MessageBuf) (v : value) : result MessageBuf io_error :=
  if serializable v then Ok (m ++ [v]) else Err encoding_error.

Definition pop (t : ty) (m : MessageBuf) : result (value * MessageBuf) io_error :=
  match m with
  | v :: rest => if has_ty v t then Ok (v, rest) else Err decoding_error
  | [] => Err decoding_error
  end.

(* ------------------------------------------------------------------ *)
(** ** [rpc.rs]: request kind, requests, responders *)

(** [type RequestId = u32] *)
Abbreviation RequestId := Z (only parsing).

(** [enum Type { Request = 0, Response = 1 }] *)
Inductive Type_ : Type := Request | Response.

Definition Type_as_u8 (t : Type_) : Z :=
  match t with Request => 0 | Response => 1 end.

Definition invalid_type_error : io_error :=
  mk_io_error InvalidData "invalid req/resp type".

(** [Type::from_u8] *)
Definition Type_from_u8 (num : Z) : result Type_ io_error :=
  if Z.eqb num 0 then Ok Request
  else if Z.eqb num 1 then Ok Response
  else Err invalid_type_error.

(** [trait Request]: the wire name and the Rust types involved. *)
Record RequestTy : Type := mk_request_ty {
  NAME : string;
  req_ty : ty;
  success_ty : ty;
  error_ty : ty
}.

(** Step 1 of [Outgoing::request]: the request packet. *)
Definition build_request (id : RequestId) (name : string) (r : value)
  : outcome MessageBuf :=
  try! m0 := unwrap (push MessageBuf_empty (VU8 (Type_as_u8 Request))) in
  try! m1 := unwrap (push m0 (VU32 id)) in
  try! m2 := unwrap (push m1 (VStr name)) in
  unwrap (push m2 r).

(** [Result<S, E>] as a serialized value. *)
Definition result_value (res : result value value) : value :=
  match res with Ok v => VOk v | Err e => VErr e end.

Record Responder : Type := mk_responder {
  responder_id : RequestId
  (* [origin] is the connection's [transport::Sender]: the queue the
     frame is appended to below. *)
}.

(** [Responder::respond]: build the response frame and send it on the
    origin sender, modelled as the outbound frame queue. *)
Definition Responder_respond (rs : Responder) (res : result value value)
  (origin : list MessageBuf) : outcome (list MessageBuf) :=
  try! m0 := unwrap (push MessageBuf_empty (VU8 (Type_as_u8 Response))) in
  try! m1 := unwrap (push m0 (VU32 (responder_id rs))) in
  try! m2 := unwrap (push m1 (result_value res)) in
  Returned (origin ++ [m2]).

(** Typed pops used by the resolver. *)
Definition pop_u8 (m : MessageBuf) : result (Z * MessageBuf) io_error :=
  match pop TU8 m with
  | Ok (VU8 n, rest) => Ok (n, rest)
  | Ok _ => Err decoding_error
  | Err e => Err e
  end.

Definition pop_u32 (m : MessageBuf) : result (Z * MessageBuf) io_error :=
  match pop TU32 m with
  | Ok (VU32 n, rest) => Ok (n, rest)
  | Ok _ => Err decoding_error
  | Err e => Err e
  end.

Definition pop_string (m : MessageBuf) : result (string * MessageBuf) io_error :=
  match pop TStr m with
  | Ok (VStr s, rest) => Ok (s, rest)
  | Ok _ => Err decoding_error
  | Err e => Err e
  end.

(* ------------------------------------------------------------------ *)
(** ** The multiplexer state *)

(** Width of [usize] on the (64-bit) target. *)
Definition usize_bits : Z := 64.

(** A [oneshot] channel created by [Outgoing::request], together with the
    [Response] handle holding its receiver.  [os_id] is [Response::id];
    [os_frame] (ghost) is the position of the request frame in the
    outbound queue. *)
Record oneshot : Type := mk_oneshot {
  os_slot : option MessageBuf;
  os_tx_dropped : bool;
  os_rx_dropped : bool;
  os_id : RequestId;
  os_frame : nat
}.

(** [RequestBuf]; its [origin] is the connection's own sender. *)
Record RequestBuf : Type := mk_request_buf {
  rb_id : RequestId;
  rb_name : string;
  rb_msg : MessageBuf
}.

(** Who removed an entry from the pending table. *)
Inductive remover : Type :=
| ByResolver
| ByDrop (j : nat).

(** Ghost log of the operations on the shared state, in program order. *)
Inductive effect : Type :=
| LogFetchAdd (c : Z)
| LogInsert (id : RequestId) (c : nat) (displaced : option nat)
| LogSend (k : nat)
| LogRemove (who : remover) (id : RequestId) (removed : option nat).

(** The state shared by all clones of one multiplexer's [Outgoing], its
    [Response]s and its [Resolver]: the [Arc<AtomicUsize>] counter, the
    [Arc<Mutex<HashMap<RequestId, Pending>>>] table (a pending sender is
    named by the index of its oneshot), the oneshots, the frames enqueued
    on the [transport::Sender] and the [Incoming] queue.  Every clone of
    [Outgoing] points to these same cells. *)
Record mux : Type := mk_mux {
  next_id : Z;
  pending : gmap Z nat;
  oneshots : list oneshot;
  sent : list MessageBuf;
  incoming : list (result RequestBuf io_error);
  effects : list effect
}.

(** [multiplex]: fresh counter at 0, empty table and queues. *)
Definition multiplex_init : mux := mk_mux 0 ∅ [] [] [] [].

Definition set_next_id (c : Z) (s : mux) : mux :=
  mk_mux c (pending s) (oneshots s) (sent s) (incoming s) (effects s).
Definition set_pending (p : gmap Z nat) (s : mux) : mux :=
  mk_mux (next_id s) p (oneshots s) (sent s) (incoming s) (effects s).
Definition set_oneshots (os : list oneshot) (s : mux) : mux :=
  mk_mux (next_id s) (pending s) os (sent s) (incoming s) (effects s).
Definition set_sent (q : list MessageBuf) (s : mux) : mux :=
  mk_mux (next_id s) (pending s) (oneshots s) q (incoming s) (effects s).
Definition set_incoming (q : list (result RequestBuf io_error)) (s : mux) : mux :=
  mk_mux (next_id s) (pending s) (oneshots s) (sent s) q (effects s).
Definition log (e : effect) (s : mux) : mux :=
  mk_mux (next_id s) (pending s) (oneshots s) (sent s) (incoming s) (effects s ++ [e]).

Definition update_oneshot (c : nat) (f : oneshot -> oneshot) (s : mux) : mux :=
  match oneshots s !! c with
  | Some o => set_oneshots (<[c := f o]> (oneshots s)) s
  | None => s
  end.

Definition with_tx_dropped (o : oneshot) : oneshot :=
  mk_oneshot (os_slot o) true (os_rx_dropped o) (os_id o) (os_frame o).
Definition with_rx_dropped (o : oneshot) : oneshot :=
  mk_oneshot (os_slot o) (os_tx_dropped o) true (os_id o) (os_frame o).

(** The value sent through the oneshot; sending consumes the sender. *)
Definition with_message (msg : MessageBuf) (o : oneshot) : oneshot :=
  mk_oneshot (Some msg) true (os_rx_dropped o) (os_id o) (os_frame o).

(** Dropping the [oneshot::Sender] removed from the table, if any. *)
Definition drop_tx (removed : option nat) (s : mux) : mux :=
  match removed with
  | Some c => update_oneshot c with_tx_dropped s
  | None => s
  end.

(** [tx.send(msg)]: fails when the receiver is gone; consumes [tx]. *)
Definition oneshot_send (c : nat) (msg : MessageBuf) (s : mux) : bool * mux :=
  match oneshots s !! c with
  | Some o =>
      if os_rx_dropped o then (false, update_oneshot c with_tx_dropped s)
      else (true, update_oneshot c (with_message msg) s)
  | None => (false, s)
  end.

(** [Outgoing::next_id]: [fetch_add(1)] on the [usize] counter, then
    [as u32]. *)
Definition Outgoing_next_id (s : mux) : RequestId * mux :=
  let c := next_id s in
  (c mod 2 ^ 32, log (LogFetchAdd c) (set_next_id ((c + 1) mod 2 ^ usize_bits) s)).

(** [pending.insert(id, tx)]; [HashMap::insert] returns the previous
    sender, which is dropped at once. *)
Definition pending_insert (id : RequestId) (c : nat) (s : mux) : mux :=
  let old := pending s !! id in
  drop_tx old (log (LogInsert id c old) (set_pending (<[id := c]> (pending s)) s)).

(** [self.sender.send(msg)] *)
Definition sender_send (msg : MessageBuf) (s : mux) : mux :=
  log (LogSend (length (sent s))) (set_sent (sent s ++ [msg]) s).

(** [Outgoing::request]; the returned [Response] is named by the index of
    its oneshot.  A panic in step 1 unwinds after the counter was bumped
    (the oneshot created before it is dropped unseen). *)
Definition Outgoing_request (s : mux) (name : string) (r : value)
  : mux * outcome nat :=
  let (id, s1) := Outgoing_next_id s in
  match build_request id name r with
  | Panicked m => (s1, Panicked m)
  | Returned msg =>
      let c := length (oneshots s1) in
      let o := mk_oneshot None false false id (length (sent s1)) in
      let s2 := set_oneshots (oneshots s1 ++ [o]) s1 in
      let s3 := pending_insert id c s2 in
      let s4 := sender_send msg s3 in
      (s4, Returned c)
  end.

(** [Drop for Response]: [pending.remove(&self.id)], then the receiver
    is dropped.  A handle is dropped at most once. *)
Definition Response_drop (j : nat) (s : mux) : mux :=
  match oneshots s !! j with
  | Some o =>
      if os_rx_dropped o then s
      else
        let removed := pending s !! os_id o in
        let s1 := log (LogRemove (ByDrop j) (os_id o) removed)
                      (set_pending (delete (os_id o) (pending s)) s) in
        update_oneshot j with_rx_dropped (drop_tx removed s1)
  | None => s
  end.

(* ------------------------------------------------------------------ *)
(** ** The resolver *)

(** [unbounded_send] onto the [Incoming] queue (its receiver is alive). *)
Definition incoming_send (x : result RequestBuf io_error) (s : mux) : mux :=
  set_incoming (incoming s ++ [x]) s.

(** [Resolver::decode] *)
Definition Resolver_decode (s : mux) (msg : MessageBuf) : result mux io_error :=
  match pop_u8 msg with
  | Err e => Err e
  | Ok (n, m1) =>
    match Type_from_u8 n with
    | Err e => Err e
    | Ok ty =>
      match pop_u32 m1 with
      | Err e => Err e
      | Ok (id, m2) =>
        match ty with
        | Request =>
            match pop_string m2 with
            | Err e => Err e
            | Ok (name, m3) => Ok (incoming_send (Ok (mk_request_buf id name m3)) s)
            end
        | Response =>
            let removed := pending s !! id in
            let s1 := log (LogRemove ByResolver id removed)
                          (set_pending (delete id (pending s)) s) in
            match removed with
            | Some c => Ok (snd (oneshot_send c m2 s1))
            | None => Ok s1
            end
        end
      end
    end
  end.

(** What [MessageBuf::read] returns on the socket. *)
Inductive read_result : Type :=
| ReadMsg (m : MessageBuf)
| ReadEof
| ReadErr (e : io_error).

(** How the resolver thread stands after the reads it was given: the
    state, the reads it never performed, whether its loop ended (which
    drops the [Incoming] sender) and whether it shut the socket down. *)
Record resolver_exit : Type := mk_resolver_exit {
  rx_final : mux;
  rx_unread : list read_result;
  rx_stopped : bool;
  rx_shutdown : bool
}.

(** The loop of [Resolver::dispatch]; with no read left the thread is
    still blocked in [MessageBuf::read]. *)
Fixpoint Resolver_dispatch (s : mux) (reads : list read_result) : resolver_exit :=
  match reads with
  | [] => mk_resolver_exit s [] false false
  | rd :: rest =>
      let res := match rd with
                 | ReadMsg m => Resolver_decode s m
                 | ReadEof => Ok s
                 | ReadErr e => Err e
                 end in
      match rd, res with
      | ReadEof, _ => mk_resolver_exit s rest true true
      | _, Err e => mk_resolver_exit (incoming_send (Err e) s) rest true true
      | _, Ok s' => Resolver_dispatch s' rest
      end
  end.

(** What a consumer of [Incoming] observes. *)
Inductive stream_event : Type :=
| Item (x : RequestBuf)
| StreamErr (e : io_error)
| StreamEnd.

(** Modelled from the spec: [transport::poll_receiver] (module
    [transport], not in the sources).  Items are yielded in order, an
    error is yielded once and nothing follows it, and the stream ends once
    the sender is dropped and the queue is drained. *)
Fixpoint Incoming_events (q : list (result RequestBuf io_error)) (closed : bool)
  : list stream_event :=
  match q with
  | [] => if closed then [StreamEnd] else []
  | Ok x :: q' => Item x :: Incoming_events q' closed
  | Err e :: _ => [StreamErr e]
  end.

(* ------------------------------------------------------------------ *)
(** ** The remote side and executions of one multiplexer *)

(** The peer's side of one request: its resolver reads the request frame
    ([kind], [id], [name]), the handler's result is passed to the
    [Responder] built with that id, and the response frame comes back. *)
Definition peer_response (req : MessageBuf) (res : result value value)
  : option MessageBuf :=
  match pop_u8 req with
  | Ok (0, m1) =>
      match pop_u32 m1 with
      | Ok (id, m2) =>
          match pop_string m2 with
          | Ok _ =>
              match Responder_respond (mk_responder id) res [] with
              | Returned [f] => Some f
              | _ => None
              end
          | Err _ => None
          end
      | Err _ => None
      end
  | _ => None
  end.

(** Events on one multiplexer: a request from any clone of [Outgoing],
    the drop of the [j]-th [Response], and the arrival of the response
    the peer's responder produced for the [k]-th frame we sent. *)
Inductive event : Type :=
| EvRequest (name : string) (payload : value)
| EvDrop (j : nat)
| EvDeliver (k : nat) (res : result value value).

Definition step (s : mux) (ev : event) : mux :=
  match ev with
  | EvRequest name r => fst (Outgoing_request s name r)
  | EvDrop j => Response_drop j s
  | EvDeliver k res =>
      match sent s !! k with
      | Some req =>
          match peer_response req res with
          | Some f =>
              match Resolver_decode s f with
              | Ok s' => s'
              | Err _ => s
              end
          | None => s
          end
      | None => s
      end
  end.

Definition run (s : mux) (evs : list event) : mux := fold_left step evs s.

Definition is_request (ev : event) : bool :=
  match ev with EvRequest _ _ => true | _ => false end.

Definition count_requests (evs : list event) : nat :=
  length (filter (fun ev => is_request ev = true) evs).

(** What [Response::poll] returns for the [j]-th response. *)
Inductive poll_result : Type :=
| Ready (v : value)
| AppError (e : value)
| IoError (e : io_error)
| NotReady.

Definition request_canceled : io_error := mk_io_error Other "request canceled".

(** [Future for Response::poll] with [R::Success = st], [R::Error = et]. *)
Definition Response_poll (s : mux) (j : nat) (st et : ty) : poll_result :=
  match oneshots s !! j with
  | Some o =>
      match os_slot o with
      | Some msg =>
          match pop (TResult st et) msg with
          | Ok (VOk v, _) => Ready v
          | Ok (VErr e, _) => AppError e
          | Ok _ => IoError (mk_io_error Other "decoding error")
          | Err err => IoError (mk_io_error Other (err_msg err))
          end
      | None => if os_tx_dropped o then IoError request_canceled else NotReady
      end
  | None => NotReady
  end.

(** Ping/Pong of the specification. *)
Definition ping (x : Z) : value := VStruct "Ping" [VI32 x].
Definition pong (x : Z) : value := VStruct "Pong" [VI32 x].

(** [n] requests whose [Response] is dropped at once, the first one
    being the [j0]-th handle. *)
Fixpoint churn (n j0 : nat) : list event :=
  match n with
  | O => []
  | S n' => EvRequest "Ping" (ping 7) :: EvDrop j0 :: churn n' (S j0)
  end.

(** [2^32 - 1], the number of requests between two requests that get
    the same id. *)
Definition wrap_gap : nat := Z.to_nat (2 ^ 32 - 1).

(** Request [Ping(0)] is kept, [2^32 - 1] requests come and go, then
    [Ping(1)] is issued and the peer answers [Ping(0)] with [Pong(1)]. *)
Definition wrap_events : list event :=
  [EvRequest "Ping" (ping 0)] ++ churn wrap_gap 1 ++
  [EvRequest "Ping" (ping 1); EvDeliver 0 (Ok (pong 1))].

(* ------------------------------------------------------------------ *)
(** ** Invariants and scenarios of the multiplexer *)

(** The immutable part of each oneshot: its [Response::id] and frame. *)
Definition keys (s : mux) : list (RequestId * nat) :=
  (fun o => (os_id o, os_frame o)) <$> oneshots s.

(** The pairing invariant of an execution [evs] from [multiplex_init] reaching
    [s], as long as at most [2^32] requests were made. *)
Record pairing_inv (s : mux) (evs : list event) : Prop := {
  inv_count : next_id s = Z.of_nat (count_requests evs);
  inv_ids : forall j id k, keys s !! j = Some (id, k) -> 0 <= id < next_id s;
  inv_nodup : NoDup (fst <$> keys s);
  inv_sent : forall k f, sent s !! k = Some f ->
    exists j id name p, keys s !! j = Some (id, k) /\ f = [VU8 0; VU32 id; VStr name; p];
  inv_pending : forall id c, pending s !! id = Some c ->
    exists k, keys s !! c = Some (id, k);
  inv_slot : forall j o m, oneshots s !! j = Some o -> os_slot o = Some m ->
    exists res, In (EvDeliver (os_frame o) res) evs /\ m = [result_value res];
  inv_frames : forall j id k, keys s !! j = Some (id, k) ->
    exists name p, sent s !! k = Some [VU8 0; VU32 id; VStr name; p]
}.

(** A transition that keeps the counter, the outbound queue, the handles
    and every slot, and only shrinks the pending table. *)
Record benign (s s' : mux) : Prop := {
  bn_next : next_id s' = next_id s;
  bn_sent : sent s' = sent s;
  bn_keys : keys s' = keys s;
  bn_slots : forall j o', oneshots s' !! j = Some o' ->
    exists o, oneshots s !! j = Some o /\ os_slot o' = os_slot o;
  bn_pending : forall id c, pending s' !! id = Some c -> pending s !! id = Some c
}.

Definition ping_frame (id x : Z) : MessageBuf := [VU8 0; VU32 id; VStr "Ping"; ping x].

Definition fan_out_events : list event :=
  [EvRequest "Ping" (ping 1); EvRequest "Ping" (ping 2); EvRequest "Ping" (ping 3);
   EvDeliver 2 (Ok (pong 4)); EvDeliver 1 (Ok (pong 3)); EvDeliver 0 (Ok (pong 2))].

(** Does effect [e] take the sender of handle [c] out of the table? *)
Definition removes (c : nat) (e : effect) : bool :=
  match e with
  | LogRemove _ _ (Some c') => Nat.eqb c' c
  | _ => false
  end.

(** How often the sender of handle [c] was taken out of the table. *)
Fixpoint removals (c : nat) (effs : list effect) : nat :=
  match effs with
  | [] => O
  | e :: l => ((if removes c e then 1 else 0) + removals c l)%nat
  end.

(** Discipline of the pending table: no insert displaces an entry, a
    [Response] only removes its own entry, and each handle is either
    still in the table, never removed, waiting, or was removed exactly
    once and is in it no more. *)
Record removal_inv (s : mux) : Prop := {
  rm_insert : forall id c d, ~ In (LogInsert id c (Some d)) (effects s);
  rm_own : forall j id c, In (LogRemove (ByDrop j) id (Some c)) (effects s) -> c = j;
  rm_handles : forall c o, oneshots s !! c = Some o ->
    (removals c (effects s) = 1%nat /\ forall id, pending s !! id <> Some c) \/
    (removals c (effects s) = 0%nat /\ pending s !! os_id o = Some c /\
     os_slot o = None /\ os_rx_dropped o = false);
  rm_fresh : forall c, (length (oneshots s) <= c)%nat -> removals c (effects s) = 0%nat
}.

Definition cancel_events : list event :=
  [EvRequest "Ping" (ping 10); EvDrop 0; EvDeliver 0 (Ok (pong 11));
   EvRequest "Ping" (ping 20); EvDeliver 1 (Ok (pong 21))].

(* ------------------------------------------------------------------ *)
(** ** [coordinator/dispatch.rs] *)

(** [ExecutorId], a [u64] newtype. *)
Abbreviation ExecutorId := Z (only parsing).

(** [enum State { Executor(ExecutorId) }], ordered by its id. *)
Inductive State : Type := Executor (id : ExecutorId).

Definition State_id (st : State) : ExecutorId := match st with Executor id => id end.

(** [BTreeSet<State>::insert]: the set as the ascending list it
    iterates in. *)
Fixpoint btree_insert (x : State) (l : list State) : list State :=
  match l with
  | [] => [x]
  | y :: l' =>
      if Z.ltb (State_id x) (State_id y) then x :: l
      else if Z.eqb (State_id x) (State_id y) then l
      else y :: btree_insert x l'
  end.

(** Modelled from the spec: the coordinator core ([CoordinatorRef] of
    [coordinator::resources], not in the sources), seen through the calls
    it receives; [add_executor] registers an executor under a fresh id
    from a counter. *)
Inductive coord_call : Type :=
| CallSubmission (req : value)
| CallAddWorkerGroup (req : value)
| CallAddExecutor (req : value) (id : ExecutorId)
| CallRemoveExecutor (id : ExecutorId).

Record coordinator : Type := mk_coordinator {
  next_executor : ExecutorId;
  calls : list coord_call
}.

Definition coord_log (x : coord_call) (c : coordinator) : coordinator :=
  mk_coordinator (next_executor c) (calls c ++ [x]).

Definition coord_add_executor (req : value) (c : coordinator) : ExecutorId * coordinator :=
  let id := next_executor c in
  (id, mk_coordinator (id + 1) (calls c ++ [CallAddExecutor req id])).

Definition coord_remove_executor (id : ExecutorId) (c : coordinator) : coordinator :=
  coord_log (CallRemoveExecutor id) c.

(** Modelled from the spec: [async::do_while::Stop] (module [async], not
    in the sources); [?] turns an [io::Error] into [Stop::Fail]. *)
Inductive Stop (E : Type) : Type :=
| Terminate
| Fail (e : E).
Arguments Terminate {E}.
Arguments Fail {E} e.

(** [struct Dispatch]: the coordinator, the [associated] tokens, the
    futures handed to [async::spawn] (by request id, each completes with
    [resp.respond]) and the frames sent on this connection. *)
Record Dispatch : Type := mk_dispatch {
  coord : coordinator;
  associated : list State;
  spawned : list (string * RequestId);
  out : list MessageBuf
}.

(** [Dispatch::new] *)
Definition Dispatch_new (c : coordinator) : Dispatch := mk_dispatch c [] [] [].

(** [RequestBuf::decode::<R>]: pop the payload, keep the id. *)
Definition RequestBuf_decode (t : ty) (req : RequestBuf) : result (value * Responder) io_error :=
  match pop t (rb_msg req) with
  | Ok (v, _) => Ok (v, mk_responder (rb_id req))
  | Err e => Err e
  end.

Definition invalid_request_error : io_error := mk_io_error InvalidData "invalid request".

Definition dispatch_spawn (kind : string) (resp : Responder) (x : coord_call) (d : Dispatch)
  : Dispatch :=
  mk_dispatch (coord_log x (coord d)) (associated d)
              (spawned d ++ [(kind, responder_id resp)]) (out d).

(** [Dispatch::dispatch]; the state is returned also when the call
    panics, since the [Dispatch] is still dropped then. *)
Definition Dispatch_dispatch (d : Dispatch) (req : RequestBuf)
  : Dispatch * outcome (result unit (Stop io_error)) :=
  if String.eqb (rb_name req) "Submission" then
    match RequestBuf_decode (TStruct "Submission") req with
    | Err e => (d, Returned (Err (Fail e)))
    | Ok (v, resp) => (dispatch_spawn "Submission" resp (CallSubmission v) d, Returned (Ok tt))
    end
  else if String.eqb (rb_name req) "AddWorkerGroup" then
    match RequestBuf_decode (TStruct "AddWorkerGroup") req with
    | Err e => (d, Returned (Err (Fail e)))
    | Ok (v, resp) =>
        (dispatch_spawn "AddWorkerGroup" resp (CallAddWorkerGroup v) d, Returned (Ok tt))
    end
  else if String.eqb (rb_name req) "AddExecutor" then
    match RequestBuf_decode (TStruct "AddExecutor") req with
    | Err e => (d, Returned (Err (Fail e)))
    | Ok (v, resp) =>
        let (id, c') := coord_add_executor v (coord d) in
        let d1 := mk_dispatch c' (btree_insert (Executor id) (associated d))
                              (spawned d) (out d) in
        match Responder_respond resp (Ok (VU64 id)) (out d1) with
        | Returned q => (mk_dispatch c' (associated d1) (spawned d) q, Returned (Ok tt))
        | Panicked m => (d1, Panicked m)
        end
    end
  else (d, Returned (Err (Fail invalid_request_error))).

(** [Drop for Dispatch]: [remove_executor] for each token, in the order
    of the set. *)
Definition Dispatch_drop (d : Dispatch) : coordinator :=
  fold_left (fun c st => match st with Executor id => coord_remove_executor id c end)
            (associated d) (coord d).

(** Why the consumption of [Incoming] ended. *)
Inductive end_reason : Type :=
| EndStream
| EndStop (st : Stop io_error)
| EndPanic (m : string)
| EndOpen.

(** Modelled from the spec: the connection's [do_while] over [Incoming]
    (module [async], not in the sources): each request is dispatched until
    one returns an error, which stops the consumption; a stream error
    stops it as well, and so does the end of the stream. *)
Fixpoint serve (d : Dispatch) (evs : list stream_event)
  : Dispatch * end_reason * list stream_event :=
  match evs with
  | [] => (d, EndOpen, [])
  | Item req :: rest =>
      match Dispatch_dispatch d req with
      | (d', Returned (Ok _)) => serve d' rest
      | (d', Returned (Err st)) => (d', EndStop st, rest)
      | (d', Panicked m) => (d', EndPanic m, rest)
      end
  | StreamErr e :: rest => (d, EndStop (Fail e), rest)
  | StreamEnd :: rest => (d, EndStream, rest)
  end.

(** A connection served from [Dispatch::new] until it ended, then the
    [Dispatch] dropped: the coordinator afterwards. *)
Definition connection (c0 : coordinator) (evs : list stream_event) : coordinator :=
  match serve (Dispatch_new c0) evs with
  | (d, _, _) => Dispatch_drop d
  end.

(** How often [remove_executor(id)] occurs in a list of calls. *)
Fixpoint count_removes (id : ExecutorId) (l : list coord_call) : nat :=
  match l with
  | [] => O
  | CallRemoveExecutor i :: l' => ((if Z.eqb i id then 1 else 0) + count_removes id l')%nat
  | _ :: l' => count_removes id l'
  end.

(** The ids of a token list are strictly ascending. *)
Fixpoint ids_sorted (l : list State) : Prop :=
  match l with
  | [] => True
  | x :: l' => Forall (fun y => State_id x < State_id y) l' /\ ids_sorted l'
  end.

Definition removal_calls (l : list State) : list coord_call :=
  map (fun st => CallRemoveExecutor (State_id st)) l.

(** The calls a connection made since the coordinator was [c0]: no
    removal, and its tokens are exactly the executors it added. *)
Record conn_inv (c0 : coordinator) (d : Dispatch) : Prop := {
  ci_calls : exists during,
    calls (coord d) = calls c0 ++ during /\
    (forall id, count_removes id during = O) /\
    (forall id, (exists v, In (CallAddExecutor v id) during) <-> In (Executor id) (associated d));
  ci_sorted : ids_sorted (associated d)
}.

Definition add_executor_req : RequestBuf :=
  mk_request_buf 3 "AddExecutor" [VStruct "AddExecutor" []].

Definition unknown_req : RequestBuf := mk_request_buf 4 "Shutdown" [VUnit].

(* ------------------------------------------------------------------ *)
(** ** Listening sockets: [network/mod.rs] and [rpc.rs] *)

(** [std::net::IpAddr] *)
Inductive IpAddr : Type :=
| V4 (a b c d : Z)
| V6 (segments : list Z).

Record SocketAddr : Type := mk_socket_addr {
  sa_ip : IpAddr;
  sa_port : Z
}.

Definition is_unspecified (ip : IpAddr) : bool :=
  match ip with
  | V4 a b c d => Z.eqb a 0 && Z.eqb b 0 && Z.eqb c 0 && Z.eqb d 0
  | V6 segs => forallb (fun x => Z.eqb x 0) segs
  end.

(** Splitting a string at every occurrence of a character. *)
Fixpoint split_on (sep : Ascii.ascii) (s : string) : list string :=
  match s with
  | EmptyString => [EmptyString]
  | String c s' =>
      if Ascii.eqb c sep then EmptyString :: split_on sep s'
      else match split_on sep s' with
           | w :: ws => String c w :: ws
           | [] => [String c EmptyString]
           end
  end.

Definition digit_value (c : Ascii.ascii) (radix : Z) : option Z :=
  let n := Z.of_nat (Ascii.nat_of_ascii c) in
  let v := if (48 <=? n) && (n <=? 57) then Some (n - 48)
           else if (97 <=? n) && (n <=? 102) then Some (n - 87)
           else if (65 <=? n) && (n <=? 70) then Some (n - 55)
           else None in
  match v with
  | Some x => if x <? radix then Some x else None
  | None => None
  end.

Fixpoint parse_digits (radix acc : Z) (s : string) : option Z :=
  match s with
  | EmptyString => Some acc
  | String c s' =>
      match digit_value c radix with
      | Some x => parse_digits radix (acc * radix + x) s'
      | None => None
      end
  end.

(** A number of [1] to [max_len] digits, at most [bound]. *)
Definition parse_number (radix max_len bound : Z) (s : string) : option Z :=
  if (1 <=? Z.of_nat (String.length s)) && (Z.of_nat (String.length s) <=? max_len) then
    match parse_digits radix 0 s with
    | Some n => if n <=? bound then Some n else None
    | None => None
    end
  else None.

Fixpoint all_some {A : Type} (l : list (option A)) : option (list A) :=
  match l with
  | [] => Some []
  | Some x :: l' => match all_some l' with Some xs => Some (x :: xs) | None => None end
  | None :: _ => None
  end.

Definition parse_ipv4 (s : string) : option IpAddr :=
  match all_some (map (parse_number 10 3 255) (split_on "."%char s)) with
  | Some [a; b; c; d] => Some (V4 a b c d)
  | _ => None
  end.

(** The groups of an IPv6 text on one side of [::]. *)
Definition ipv6_groups (s : string) : option (list Z) :=
  match s with
  | EmptyString => Some []
  | _ => all_some (map (parse_number 16 4 65535) (split_on ":"%char s))
  end.

(** The text before and after the first [::], if any. *)
Fixpoint split_dcolon (s : string) : option (string * string) :=
  match s with
  | String ":"%char (String ":"%char rest) => Some (EmptyString, rest)
  | String c s' =>
      match split_dcolon s' with
      | Some (h, t) => Some (String c h, t)
      | None => None
      end
  | EmptyString => None
  end.

Definition parse_ipv6 (s : string) : option IpAddr :=
  match split_dcolon s with
  | Some (h, t) =>
      match ipv6_groups h, ipv6_groups t with
      | Some gh, Some gt =>
          if (length gh + length gt <=? 7)%nat
          then Some (V6 (gh ++ repeat 0 (8 - length gh - length gt) ++ gt))
          else None
      | _, _ => None
      end
  | None =>
      match ipv6_groups s with
      | Some g => if (length g =? 8)%nat then Some (V6 g) else None
      | None => None
      end
  end.

(** [(&str, u16)] as [ToSocketAddrs], for an IP literal (a host name
    would go to the resolver, which is not modelled). *)
Definition to_socket_addr (host : string) (port : Z) : option SocketAddr :=
  match parse_ipv4 host with
  | Some ip => Some (mk_socket_addr ip port)
  | None =>
      match parse_ipv6 host with
      | Some ip => Some (mk_socket_addr ip port)
      | None => None
      end
  end.

(** [network::Network]: the configured external host name. *)
Record Network : Type := mk_network {
  network_external : string
}.

(** [Network::init]: the external name defaults to ["localhost"]. *)
Definition Network_init (external : option string) : Network :=
  mk_network (default "localhost" external).

(** [network::Listener]; [listener_bound] records the address handed to
    [TcpListener::bind].  [local_port] is the port the operating system
    reports through [local_addr] (the chosen one when [port] is 0). *)
Record Listener : Type := mk_listener {
  listener_bound : SocketAddr;
  listener_external : string;
  listener_port : Z
}.

Definition Listener_new (network : Network) (port local_port : Z) : option Listener :=
  match to_socket_addr "::" port with
  | Some sockaddr =>
      let external := network_external network in
      Some (mk_listener sockaddr external local_port)
  | None => None
  end.

(** [Network::listen]: [port.into().unwrap_or(0)]. *)
Definition Network_listen (network : Network) (port : option Z) (local_port : Z) : option Listener :=
  Listener_new network (default 0 port) local_port.

Definition Listener_external_addr (l : Listener) : string * Z :=
  (listener_external l, listener_port l).

(** The network handle of [strymon_communication]: its [hostname]. *)
Record rpc_Network : Type := mk_rpc_network {
  hostname : string
}.

(** [rpc::Server], with the bound address recorded as for [Listener]. *)
Record Server : Type := mk_server {
  server_bound : SocketAddr;
  server_external : string;
  server_port : Z
}.

Definition Server_new (network : rpc_Network) (port local_port : Z) : option Server :=
  match to_socket_addr "0.0.0.0" port with
  | Some sockaddr =>
      let external := hostname network in
      Some (mk_server sockaddr external local_port)
  | None => None
  end.

Definition Server_external_addr (s : Server) : string * Z :=
  (server_external s, server_port s).

Definition ipv4_unspecified : IpAddr := V4 0 0 0 0.
Definition ipv6_unspecified : IpAddr := V6 (repeat 0 8).

(* ------------------------------------------------------------------ *)
(** ** Blocking on a response and the threads of [network/mod.rs] *)

(** [Response::wait_unwrap]: [map_err(|e| e.expect(..))] then [wait()];
    [None] while the future is not ready ([wait] blocks). *)
Definition Response_wait_unwrap (p : poll_result) : option (outcome (result value value)) :=
  match p with
  | Ready v => Some (Returned (Ok v))
  | AppError e => Some (Returned (Err e))
  | IoError _ => Some (Panicked "request failed with I/O error")
  | NotReady => None
  end.

(** The writer thread of [Network::channel]: [q] are the frames
    [sender_rx.recv()] hands out, [writes] the results of the successive
    [write] calls on the socket, [closed] whether every [Sender] is gone
    (so that [recv] fails once [q] is drained).  Result: the frames written
    and whether the thread shut the socket down.  With no write result
    left the thread is still inside [write]. *)
Fixpoint channel_writer (q : list MessageBuf) (writes : list (result unit io_error))
    (closed : bool) : list MessageBuf * bool :=
  match q with
  | [] => ([], closed)
  | msg :: q' =>
      match writes with
      | [] => ([], false)
      | Err _ :: _ => ([], true)
      | Ok _ :: writes' =>
          let (written, shut) := channel_writer q' writes' closed in
          (msg :: written, shut)
      end
  end.

Definition is_ok {A E : Type} (r : result A E) : bool :=
  match r with Ok _ => true | Err _ => false end.

(** The reader thread of [Network::channel]: [reads] are the results of
    the successive [read] calls, [sends] whether each [tx.send(..).wait()]
    succeeds (it fails once the [Receiver] is dropped).  Result: the items
    handed to the [Receiver] and whether the thread shut the socket down;
    with no input left it is still blocked. *)
Fixpoint channel_reader (reads : list (result MessageBuf io_error)) (sends : list bool)
    : list (result MessageBuf io_error) * bool :=
  match reads with
  | [] => ([], false)
  | message :: reads' =>
      let ok := is_ok message in
      match sends with
      | [] => ([], false)
      | false :: _ => ([], true)
      | true :: sends' =>
          if ok then
            let (items, shut) := channel_reader reads' sends' in
            (message :: items, shut)
          else ([message], true)
      end
  end.

(** What [listener.accept()] returns, with the result of
    [network.channel(s)] on the accepted socket ([try_clone] may fail). *)
Inductive accept_result : Type :=
| AcceptErr (e : io_error)
| Accepted (channel : result nat io_error).

(** [stream.is_ok()] *)
Definition accept_ok (stream : accept_result) : bool :=
  match stream with AcceptErr _ => false | Accepted _ => true end.

(** [stream.and_then(|(s, _)| network.channel(s))] *)
Definition accept_pair (stream : accept_result) : result nat io_error :=
  match stream with AcceptErr e => Err e | Accepted ch => ch end.

(** The accept thread of [Listener::new]: the items sent to the
    [Listener] stream and whether the loop ended (the thread exits). *)
Fixpoint listener_accept (accepts : list accept_result) (sends : list bool)
    : list (result nat io_error) * bool :=
  match accepts with
  | [] => ([], false)
  | stream :: accepts' =>
      let ok := accept_ok stream in
      let pair := accept_pair stream in
      match sends with
      | [] => ([], false)
      | false :: _ => ([], true)
      | true :: sends' =>
          if ok then
            let (items, ended) := listener_accept accepts' sends' in
            (pair :: items, ended)
          else ([pair], true)
      end
  end.

(** The request frame a peer sends for a [RequestBuf]. *)
Definition request_read (rb : RequestBuf) : read_result :=
  ReadMsg (VU8 0 :: VU32 (rb_id rb) :: VStr (rb_name rb) :: rb_msg rb).

(** A multiplexer with one request [Ping(1)] pending under id 0. *)
Definition one_request : mux := fst (Outgoing_request multiplex_init "Ping" (ping 1)).

(** A live handle whose sender was dropped holds a message. *)
Definition no_cancel (s : mux) : Prop :=
  forall j o, oneshots s !! j = Some o -> os_rx_dropped o = false ->
    os_tx_dropped o = true -> os_slot o <> None.

(* ------------------------------------------------------------------ *)
(** * Properties *)

(** A request answered, three answered in reverse order, and a
    cancelled request whose late answer is ignored. *)
Example ping_pong :
  let s := run multiplex_init [EvRequest "Ping" (ping 5); EvDeliver 0 (Ok (pong 6))] in
  Response_poll s 0 (TStruct "Pong") TUnit = Ready (pong 6).
Proof. vm_compute. reflexivity. Qed.

Example fan_out_reverse :
  let s := run multiplex_init
    [EvRequest "Ping" (ping 1); EvRequest "Ping" (ping 2); EvRequest "Ping" (ping 3);
     EvDeliver 2 (Ok (pong 4)); EvDeliver 1 (Ok (pong 3)); EvDeliver 0 (Ok (pong 2))] in
  map (fun j => Response_poll s j (TStruct "Pong") TUnit) [0; 1; 2]%nat
  = [Ready (pong 2); Ready (pong 3); Ready (pong 4)].
Proof. vm_compute. reflexivity. Qed.

Example cancellation :
  let s := run multiplex_init
    [EvRequest "Ping" (ping 10); EvDrop 0; EvDeliver 0 (Ok (pong 11));
     EvRequest "Ping" (ping 20); EvDeliver 1 (Ok (pong 21))] in
  Response_poll s 1 (TStruct "Pong") TUnit = Ready (pong 21) /\ pending s = ∅.
Proof. vm_compute. split; reflexivity. Qed.

(* ------------------------------------------------------------------ *)
(** ** Frame lemmas *)

Lemma pop_u8_cons (n : Z) (m : MessageBuf) :
  0 <= n < 256 -> pop_u8 (VU8 n :: m) = Ok (n, m).
Proof. intros H. unfold pop_u8, pop. simpl. rewrite bool_decide_eq_true_2 by lia. done. Qed.

Lemma pop_u32_cons (n : Z) (m : MessageBuf) :
  0 <= n < 2 ^ 32 -> pop_u32 (VU32 n :: m) = Ok (n, m).
Proof. intros H. unfold pop_u32, pop. simpl. rewrite bool_decide_eq_true_2 by lia. done. Qed.

Lemma pop_u32_cons_out (n : Z) (m : MessageBuf) :
  ~ (0 <= n < 2 ^ 32) -> pop_u32 (VU32 n :: m) = Err decoding_error.
Proof. intros H. unfold pop_u32, pop. simpl. rewrite bool_decide_eq_false_2 by lia. done. Qed.

Lemma Resolver_decode_response (s : mux) (id : Z) (m : MessageBuf) :
  0 <= id < 2 ^ 32 ->
  Resolver_decode s (VU8 1 :: VU32 id :: m) =
    let removed := pending s !! id in
    let s1 := log (LogRemove ByResolver id removed)
                  (set_pending (delete id (pending s)) s) in
    match removed with
    | Some c => Ok (snd (oneshot_send c m s1))
    | None => Ok s1
    end.
Proof.
  intros H. unfold Resolver_decode.
  rewrite pop_u8_cons by lia. simpl. rewrite pop_u32_cons by lia. done.
Qed.

Lemma peer_response_shape (id : Z) (name : string) (p : value)
  (res : result value value) (g : MessageBuf) :
  peer_response [VU8 0; VU32 id; VStr name; p] res = Some g ->
  0 <= id < 2 ^ 32 /\ g = [VU8 1; VU32 id; result_value res].
Proof.
  unfold peer_response. rewrite pop_u8_cons by lia.
  destruct (decide (0 <= id < 2 ^ 32)) as [Hid | Hid].
  - rewrite pop_u32_cons by exact Hid. simpl.
    unfold Responder_respond, push. simpl.
    destruct (serializable (result_value res)); simpl; intros; simplify_eq; auto.
  - rewrite pop_u32_cons_out by exact Hid. discriminate.
Qed.

Lemma build_request_shape (id : Z) (name : string) (r : value) (f : MessageBuf) :
  build_request id name r = Returned f -> f = [VU8 0; VU32 id; VStr name; r].
Proof.
  unfold build_request, push. simpl.
  destruct (serializable r); simpl; intros; simplify_eq; done.
Qed.

(* ------------------------------------------------------------------ *)
(** ** State lemmas *)

Lemma update_oneshot_fields (c : nat) (f : oneshot -> oneshot) (s : mux) :
  next_id (update_oneshot c f s) = next_id s /\
  pending (update_oneshot c f s) = pending s /\
  sent (update_oneshot c f s) = sent s /\
  incoming (update_oneshot c f s) = incoming s /\
  effects (update_oneshot c f s) = effects s.
Proof. unfold update_oneshot. destruct (oneshots s !! c); done. Qed.

Lemma update_oneshot_lookup (c j : nat) (f : oneshot -> oneshot) (s : mux) :
  oneshots (update_oneshot c f s) !! j =
    if decide (j = c) then f <$> oneshots s !! c else oneshots s !! j.
Proof.
  unfold update_oneshot. destruct (oneshots s !! c) eqn:Hc; simpl.
  - case_decide; subst.
    + rewrite list_lookup_insert_eq; [done|]. by eapply lookup_lt_Some.
    + by rewrite list_lookup_insert_ne.
  - case_decide; subst; by rewrite ?Hc.
Qed.

Lemma update_oneshot_keys (c : nat) (f : oneshot -> oneshot) (s : mux) :
  (forall o, os_id (f o) = os_id o /\ os_frame (f o) = os_frame o) ->
  keys (update_oneshot c f s) = keys s.
Proof.
  intros Hf. unfold keys, update_oneshot.
  destruct (oneshots s !! c) as [o|] eqn:Hc; simpl; [|done].
  rewrite list_fmap_insert. destruct (Hf o) as [-> ->].
  apply list_insert_id. by rewrite list_lookup_fmap, Hc.
Qed.

Lemma drop_tx_fields (removed : option nat) (s : mux) :
  next_id (drop_tx removed s) = next_id s /\
  pending (drop_tx removed s) = pending s /\
  sent (drop_tx removed s) = sent s /\
  incoming (drop_tx removed s) = incoming s /\
  keys (drop_tx removed s) = keys s /\
  (forall j o, oneshots (drop_tx removed s) !! j = Some o ->
     exists o0, oneshots s !! j = Some o0 /\ os_slot o = os_slot o0).
Proof.
  destruct removed as [c|]; simpl; [|repeat split; eauto].
  destruct (update_oneshot_fields c with_tx_dropped s) as (? & ? & ? & ? & ?).
  repeat split; try done.
  - apply update_oneshot_keys. done.
  - intros j o. rewrite update_oneshot_lookup. case_decide; subst; [|eauto].
    destruct (oneshots s !! c) as [o0|]; simpl; intros; simplify_eq; eauto.
Qed.

Lemma count_requests_snoc (evs : list event) (ev : event) :
  count_requests (evs ++ [ev]) =
    (count_requests evs + if is_request ev then 1 else 0)%nat.
Proof.
  unfold count_requests. rewrite filter_app, length_app.
  f_equal. unfold filter, list_filter.
  destruct (is_request ev) eqn:E;
    [rewrite decide_True by done | rewrite decide_False by congruence]; done.
Qed.

Lemma run_snoc (s : mux) (evs : list event) (ev : event) :
  run s (evs ++ [ev]) = step (run s evs) ev.
Proof. unfold run. by rewrite fold_left_app. Qed.

Lemma keys_lookup_Some (s : mux) (j : nat) (o : oneshot) :
  oneshots s !! j = Some o -> keys s !! j = Some (os_id o, os_frame o).
Proof. intros H. unfold keys. by rewrite list_lookup_fmap, H. Qed.

Lemma keys_lookup_inv (s : mux) (j : nat) (id : RequestId) (k : nat) :
  keys s !! j = Some (id, k) ->
  exists o, oneshots s !! j = Some o /\ os_id o = id /\ os_frame o = k.
Proof.
  unfold keys. rewrite list_lookup_fmap.
  destruct (oneshots s !! j) as [o|]; simpl; intros; simplify_eq; eauto.
Qed.

(* ------------------------------------------------------------------ *)
(** ** Pairing of responses with requests (no wrap-around) *)

Lemma pairing_inv_init : pairing_inv multiplex_init [].
Proof.
  constructor.
  - done.
  - intros j id k H. unfold keys in H. simpl in H. by rewrite lookup_nil in H.
  - constructor.
  - intros k f H. simpl in H. by rewrite lookup_nil in H.
  - intros id c H. simpl in H. by rewrite lookup_empty in H.
  - intros j o m H. simpl in H. by rewrite lookup_nil in H.
  - intros j id k H. unfold keys in H. simpl in H. by rewrite lookup_nil in H.
Qed.

Lemma in_snoc_l {A : Type} (x y : A) (l : list A) : In x l -> In x (l ++ [y]).
Proof. intros H. apply in_or_app. by left. Qed.

Lemma benign_refl (s : mux) : benign s s.
Proof. constructor; eauto. Qed.

Lemma benign_trans (s1 s2 s3 : mux) : benign s1 s2 -> benign s2 s3 -> benign s1 s3.
Proof.
  intros [? ? ? Hs1 Hp1] [? ? ? Hs2 Hp2]. constructor; try congruence; eauto.
  intros j o3 H. destruct (Hs2 j o3 H) as (o2 & H2 & E2).
  destruct (Hs1 j o2 H2) as (o1 & H1 & E1). exists o1. split; congruence.
Qed.

Lemma benign_log (e : effect) (s : mux) : benign s (log e s).
Proof. constructor; eauto. Qed.

Lemma benign_delete (id : RequestId) (s : mux) :
  benign s (set_pending (delete id (pending s)) s).
Proof.
  constructor; eauto. simpl. intros id' c H. by apply lookup_delete_Some in H as [_ H].
Qed.

Lemma benign_update (c : nat) (f : oneshot -> oneshot) (s : mux) :
  (forall o, os_id (f o) = os_id o /\ os_frame (f o) = os_frame o /\ os_slot (f o) = os_slot o) ->
  benign s (update_oneshot c f s).
Proof.
  intros Hf. destruct (update_oneshot_fields c f s) as (En & Ep & Es & Ei & Ee).
  constructor; try congruence.
  - apply update_oneshot_keys. intros o. destruct (Hf o) as (? & ? & ?). done.
  - intros j o' Hj. rewrite update_oneshot_lookup in Hj. case_decide; subst; [|eauto].
    destruct (oneshots s !! c) as [o|]; simpl in Hj; simplify_eq.
    exists o. split; [done|]. apply Hf.
Qed.

Lemma benign_drop_tx (removed : option nat) (s : mux) : benign s (drop_tx removed s).
Proof.
  destruct removed as [c|]; simpl; [|apply benign_refl].
  apply benign_update. done.
Qed.

Lemma pairing_inv_benign (s s' : mux) (evs : list event) (ev : event) :
  pairing_inv s evs -> benign s s' -> is_request ev = false ->
  pairing_inv s' (evs ++ [ev]).
Proof.
  intros [Hc Hids Hnd Hsent Hpend Hslot Hframes] [Bn Bs Bk Bslot Bp] Hev.
  constructor; rewrite ?Bn, ?Bs, ?Bk; eauto.
  - rewrite count_requests_snoc, Hev. rewrite Nat.add_0_r. done.
  - intros j o' m H Hm. destruct (Bslot j o' H) as (o & Ho & Eslot).
    edestruct (Hslot j o m) as (res & Hin & ->); [done | congruence |].
    exists res. split; [|done].
    apply keys_lookup_Some in H, Ho. rewrite Bk, Ho in H.
    injection H as _ Efr. rewrite <- Efr. by apply in_snoc_l.
Qed.

Lemma Response_drop_benign (j : nat) (s : mux) : benign s (Response_drop j s).
Proof.
  unfold Response_drop.
  destruct (oneshots s !! j) as [o|]; [destruct (os_rx_dropped o)|];
    try apply benign_refl.
  eapply benign_trans; [|apply benign_update; done].
  eapply benign_trans; [|apply benign_drop_tx].
  eapply benign_trans; [apply benign_delete|]. apply benign_log.
Qed.

Lemma pairing_inv_fill (s s1 : mux) (evs : list event) (ev : event)
  (c : nat) (id : RequestId) (k : nat) (res : result value value) :
  pairing_inv s evs -> benign s s1 -> is_request ev = false ->
  keys s1 !! c = Some (id, k) -> In (EvDeliver k res) (evs ++ [ev]) ->
  pairing_inv (update_oneshot c (with_message [result_value res]) s1) (evs ++ [ev]).
Proof.
  intros Hinv Hb Hev Hc Hin.
  pose proof (pairing_inv_benign s s1 evs ev Hinv Hb Hev) as [Hcn Hids Hnd Hsent Hpend Hslot Hframes].
  destruct (update_oneshot_fields c (with_message [result_value res]) s1)
    as (En & Ep & Es & Ei & Ee).
  assert (Ek : keys (update_oneshot c (with_message [result_value res]) s1) = keys s1)
    by (apply update_oneshot_keys; done).
  constructor; rewrite ?En, ?Ep, ?Es, ?Ek; eauto.
  intros j o' m Hj Hm. rewrite update_oneshot_lookup in Hj. case_decide; subst; [|eauto].
  destruct (oneshots s1 !! c) as [o|] eqn:Ho; simpl in Hj; simplify_eq.
  simpl in Hm. injection Hm as <-. exists res. split; [|done].
  apply keys_lookup_Some in Ho. rewrite Hc in Ho. injection Ho as _ Efr.
  simpl. by rewrite <- Efr.
Qed.

Lemma pairing_inv_deliver (s : mux) (evs : list event) (k : nat) (res : result value value) :
  pairing_inv s evs -> pairing_inv (step s (EvDeliver k res)) (evs ++ [EvDeliver k res]).
Proof.
  intros Hinv. simpl.
  destruct (sent s !! k) as [f|] eqn:Hk;
    [|apply (pairing_inv_benign s); [done | apply benign_refl | done]].
  destruct (peer_response f res) as [g|] eqn:Hg;
    [|apply (pairing_inv_benign s); [done | apply benign_refl | done]].
  destruct (inv_sent _ _ Hinv k f Hk) as (j & id & name & p & Hkj & ->).
  apply peer_response_shape in Hg as [Hid ->].
  rewrite Resolver_decode_response by exact Hid. cbv zeta.
  set (s1 := log _ _).
  assert (Hb : benign s s1).
  { eapply benign_trans; [apply benign_delete | apply benign_log]. }
  destruct (pending s !! id) as [c|] eqn:Hc;
    [|apply (pairing_inv_benign s); [done | exact Hb | done]].
  destruct (inv_pending _ _ Hinv id c Hc) as (k' & Hck).
  assert (j = c) as <-.
  { assert (E1 : (fst <$> keys s) !! j = Some id) by (rewrite list_lookup_fmap, Hkj; done).
    assert (E2 : (fst <$> keys s) !! c = Some id) by (rewrite list_lookup_fmap, Hck; done).
    exact (NoDup_lookup _ _ _ _ (inv_nodup _ _ Hinv) E1 E2). }
  rewrite Hkj in Hck. injection Hck as <-.
  unfold oneshot_send. destruct (oneshots s1 !! j) as [o|] eqn:Ho; simpl;
    [destruct (os_rx_dropped o); simpl|].
  - apply (pairing_inv_benign s); [done | | done].
    eapply benign_trans; [exact Hb | apply benign_update; done].
  - eapply pairing_inv_fill; [exact Hinv | exact Hb | done | | ].
    + by rewrite (bn_keys _ _ Hb).
    + apply in_or_app. right. by left.
  - apply (pairing_inv_benign s); [done | exact Hb | done].
Qed.

Lemma pairing_inv_request (s : mux) (evs : list event) (name : string) (r : value) :
  pairing_inv s evs -> Z.of_nat (count_requests evs) < 2 ^ 32 ->
  pairing_inv (step s (EvRequest name r)) (evs ++ [EvRequest name r]).
Proof.
  intros [Hcn Hids Hnd Hsent Hpend Hslot Hframes] Hlt.
  assert (Hcount : count_requests (evs ++ [EvRequest name r]) = S (count_requests evs))
    by (rewrite count_requests_snoc; simpl; lia).
  assert (Hrange : 0 <= next_id s < 2 ^ 32).
  { rewrite Hcn. lia. }
  assert (Hmod : next_id s mod 2 ^ 32 = next_id s) by (apply Z.mod_small; lia).
  assert (Hmod' : (next_id s + 1) mod 2 ^ usize_bits = next_id s + 1)
    by (apply Z.mod_small; unfold usize_bits; lia).
  assert (Hnone : pending s !! next_id s = None).
  { destruct (pending s !! next_id s) as [c|] eqn:E; [|done].
    destruct (Hpend _ _ E) as (k & Hk). apply Hids in Hk. lia. }
  unfold step, Outgoing_request, Outgoing_next_id. cbv beta iota zeta.
  rewrite Hmod, Hmod'.
  destruct (build_request (next_id s) name r) as [msg|pmsg] eqn:Hb; simpl.
  - apply build_request_shape in Hb. subst msg.
    unfold pending_insert. simpl. rewrite Hnone. simpl.
    set (o := mk_oneshot None false false (next_id s) (length (sent s))).
    assert (Hkeys : forall j, keys s !! j = keys s !! j) by done.
    constructor; simpl.
    + rewrite Hcount. lia.
    + intros j id k H. unfold keys in H. simpl in H.
      rewrite fmap_app in H. apply lookup_app_Some in H as [H | [_ H]].
      * apply Hids in H. lia.
      * destruct (j - length _)%nat as [|[|]]; simpl in H; simplify_eq. lia.
    + unfold keys. simpl. rewrite !fmap_app. simpl. apply NoDup_app. split; [exact Hnd|].
      split; [|apply NoDup_singleton].
      intros x Hx Hx'. apply list_elem_of_singleton in Hx'. subst x.
      apply list_elem_of_lookup in Hx as [j Hj].
      rewrite list_lookup_fmap in Hj. fold (keys s) in Hj.
      destruct (keys s !! j) as [[id k]|] eqn:Ej; simpl in Hj; simplify_eq.
      apply Hids in Ej. lia.
    + intros k f H. apply lookup_app_Some in H as [H | [Hge H]].
      * destruct (Hsent k f H) as (j & id & nm & p & Hj & ->).
        exists j, id, nm, p. split; [|done]. unfold keys. simpl.
        rewrite fmap_app. apply lookup_app_l_Some. exact Hj.
      * apply list_lookup_singleton_Some in H as [Hk <-].
        exists (length (oneshots s)), (next_id s), name, r. split; [|done].
        unfold keys. simpl. rewrite fmap_app, lookup_app_r by (rewrite length_fmap; lia).
        rewrite length_fmap, Nat.sub_diag. simpl. f_equal. f_equal. lia.
    + intros id c H. apply lookup_insert_Some in H as [[<- <-] | [Hne H]].
      * exists (length (sent s)). unfold keys. simpl.
        rewrite fmap_app, lookup_app_r by (rewrite length_fmap; lia).
        rewrite length_fmap, Nat.sub_diag. done.
      * destruct (Hpend id c H) as (k & Hk). exists k. unfold keys. simpl.
        rewrite fmap_app. by apply lookup_app_l_Some.
    + intros j o' m H Hm. apply lookup_app_Some in H as [H | [_ H]].
      * edestruct (Hslot j o' m H Hm) as (res & Hin & ->).
        exists res. split; [by apply in_snoc_l | done].
      * apply list_lookup_singleton_Some in H as [_ <-]. discriminate.
    + intros j id k H. unfold keys in H. simpl in H.
      rewrite fmap_app in H. apply lookup_app_Some in H as [H | [Hge H]].
      * fold (keys s) in H. destruct (Hframes j id k H) as (nm & p & Hk).
        exists nm, p. by apply lookup_app_l_Some.
      * apply list_lookup_singleton_Some in H as [_ E]. injection E as <- <-.
        exists name, r. rewrite lookup_app_r by lia. rewrite Nat.sub_diag. done.
  - constructor; simpl; eauto.
    + rewrite Hcount. lia.
    + intros j id k H. apply Hids in H. lia.
    + intros j o' m H Hm. edestruct (Hslot j o' m H Hm) as (res & Hin & ->).
      exists res. split; [by apply in_snoc_l | done].
Qed.

Lemma count_requests_app_le (evs : list event) (ev : event) :
  (count_requests evs <= count_requests (evs ++ [ev]))%nat.
Proof. rewrite count_requests_snoc. lia. Qed.

Lemma pairing_inv_run (evs : list event) :
  Z.of_nat (count_requests evs) <= 2 ^ 32 ->
  pairing_inv (run multiplex_init evs) evs.
Proof.
  induction evs as [|ev evs IH] using rev_ind; intros Hle.
  - apply pairing_inv_init.
  - pose proof (count_requests_app_le evs ev) as Hmono.
    rewrite run_snoc. specialize (IH ltac:(lia)).
    destruct ev as [name r | j | k res].
    + apply pairing_inv_request; [exact IH|].
      rewrite count_requests_snoc in Hle. simpl in Hle. lia.
    + apply (pairing_inv_benign (run multiplex_init evs)); [exact IH | | done].
      apply Response_drop_benign.
    + by apply pairing_inv_deliver.
Qed.

Lemma pop_result_value (res : result value value) (st et : ty) (v : value) (rest : MessageBuf) :
  pop (TResult st et) [result_value res] = Ok (v, rest) -> v = result_value res.
Proof.
  unfold pop. destruct (has_ty (result_value res) (TResult st et)); intros; by simplify_eq.
Qed.

Lemma run_app (s : mux) (l1 l2 : list event) : run s (l1 ++ l2) = run (run s l1) l2.
Proof. unfold run. by rewrite fold_left_app. Qed.

Lemma churn_no_deliver (n j0 k : nat) (res : result value value) :
  ~ In (EvDeliver k res) (churn n j0).
Proof.
  revert j0. induction n as [|n IH]; intros j0; simpl; [tauto|].
  intros [H | [H | H]]; [discriminate | discriminate | exact (IH _ H)].
Qed.

Lemma lookup_snoc_last {A : Type} (l : list A) (x : A) : (l ++ [x]) !! length l = Some x.
Proof. by apply list_lookup_middle. Qed.

Lemma insert_snoc_last {A : Type} (l : list A) (x y : A) :
  <[length l := y]> (l ++ [x]) = l ++ [y].
Proof. rewrite <- (Nat.add_0_r (length l)) at 1. by rewrite insert_app_r. Qed.

(** One request whose [Response] is dropped at once leaves the table as
    it was. *)
Lemma churn_pair (s : mux) :
  0 <= next_id s -> next_id s + 1 < 2 ^ 64 ->
  pending s !! (next_id s mod 2 ^ 32) = None ->
  exists o f fx,
    step (step s (EvRequest "Ping" (ping 7))) (EvDrop (length (oneshots s))) =
      mk_mux (next_id s + 1) (pending s) (oneshots s ++ [o]) (sent s ++ [f]) (incoming s) fx.
Proof.
  destruct s as [c p os q inc fx]; simpl. intros H0 H1 Hfree.
  set (i := c mod 2 ^ 32) in *.
  assert (Hmod : (c + 1) mod 2 ^ usize_bits = c + 1)
    by (apply Z.mod_small; unfold usize_bits; lia).
  unfold step, Outgoing_request, Outgoing_next_id. cbv beta iota zeta. simpl.
  rewrite Hmod. fold i.
  unfold pending_insert. simpl. rewrite Hfree. simpl.
  unfold Response_drop. simpl. rewrite lookup_snoc_last. simpl.
  rewrite lookup_insert_eq, delete_insert_id by exact Hfree. simpl.
  unfold update_oneshot. simpl. rewrite lookup_snoc_last, insert_snoc_last. simpl.
  rewrite lookup_snoc_last, insert_snoc_last. simpl.
  eexists _, _, _. reflexivity.
Qed.

Lemma run_churn (n : nat) : forall (s : mux),
  0 <= next_id s -> next_id s + Z.of_nat n < 2 ^ 64 ->
  (forall t, (t < n)%nat -> pending s !! ((next_id s + Z.of_nat t) mod 2 ^ 32) = None) ->
  exists os q fx,
    run s (churn n (length (oneshots s))) =
      mk_mux (next_id s + Z.of_nat n) (pending s) (oneshots s ++ os)
             (sent s ++ q) (incoming s) fx /\
    length os = n /\ length q = n.
Proof.
  induction n as [|n IH]; intros s H0 Hlt Hfree.
  - exists [], [], (effects s). rewrite !app_nil_r. simpl.
    destruct s; simpl. rewrite Z.add_0_r. done.
  - assert (Hf0 : pending s !! (next_id s mod 2 ^ 32) = None).
    { specialize (Hfree O ltac:(lia)). rewrite Z.add_0_r in Hfree. exact Hfree. }
    destruct (churn_pair s H0 ltac:(lia) Hf0) as (o & f & fx & Hpair).
    change (run s (churn (S n) (length (oneshots s))))
      with (run (step (step s (EvRequest "Ping" (ping 7))) (EvDrop (length (oneshots s))))
                (churn n (S (length (oneshots s))))).
    rewrite Hpair.
    set (s' := mk_mux (next_id s + 1) (pending s) (oneshots s ++ [o]) (sent s ++ [f])
                      (incoming s) fx).
    assert (Hlen : S (length (oneshots s)) = length (oneshots s'))
      by (simpl; rewrite length_app; simpl; lia).
    rewrite Hlen.
    assert (Hfree' : forall t, (t < n)%nat ->
              pending s' !! ((next_id s' + Z.of_nat t) mod 2 ^ 32) = None).
    { intros t Ht. specialize (Hfree (S t) ltac:(lia)). simpl.
      rewrite Nat2Z.inj_succ in Hfree. rewrite <- Hfree. f_equal. f_equal. lia. }
    assert (H0' : 0 <= next_id s') by (simpl; lia).
    assert (Hlt' : next_id s' + Z.of_nat n < 2 ^ 64) by (simpl; lia).
    destruct (IH s' H0' Hlt' Hfree') as (os & q & fx' & Hrun & Hos & Hq).
    exists ([o] ++ os), ([f] ++ q), fx'. rewrite Hrun. simpl.
    rewrite <- !app_assoc. simpl. split; [|lia]. f_equal. lia.
Qed.

Lemma run_first_ping :
  run multiplex_init [EvRequest "Ping" (ping 0)] =
    mk_mux 1 (<[0 := 0%nat]> ∅) [mk_oneshot None false false 0 0] [ping_frame 0 0] []
      [LogFetchAdd 0; LogInsert 0 0 None; LogSend 0].
Proof. vm_compute. reflexivity. Qed.

(** The state after [Ping(0)], [n] short-lived requests and [Ping(1)],
    when [n = 2^32 - 1]. *)
Lemma wrap_scenario_pre (n : nat) :
  Z.of_nat n = 2 ^ 32 - 1 ->
  exists os q fx,
    run multiplex_init ([EvRequest "Ping" (ping 0)] ++ churn n 1) =
      mk_mux (2 ^ 32) (<[0 := 0%nat]> ∅) (mk_oneshot None false false 0 0 :: os)
             (ping_frame 0 0 :: q) [] fx /\
    length os = n /\ length q = n.
Proof.
  intros Hn. rewrite run_app, run_first_ping.
  set (s0 := mk_mux 1 _ _ _ _ _).
  change (churn n 1) with (churn n (length (oneshots s0))).
  destruct (run_churn n s0) as (os & q & fx & Hrun & Hos & Hq).
  - simpl. lia.
  - simpl. lia.
  - intros t Ht. simpl. apply lookup_insert_None. split; [apply lookup_empty|].
    rewrite Z.mod_small by lia. lia.
  - exists os, q, fx. rewrite Hrun. simpl. split; [|done].
    f_equal. lia.
Qed.

Lemma wrap_scenario (n : nat) :
  Z.of_nat n = 2 ^ 32 - 1 ->
  let s := run multiplex_init ([EvRequest "Ping" (ping 0)] ++ churn n 1 ++
                               [EvRequest "Ping" (ping 1); EvDeliver 0 (Ok (pong 1))]) in
  (exists o, oneshots s !! S n = Some o /\ os_id o = 0 /\ os_frame o = S n /\
             sent s !! S n = Some (ping_frame 0 1)) /\
  sent s !! 0%nat = Some (ping_frame 0 0) /\
  Response_poll s (S n) (TStruct "Pong") TUnit = Ready (pong 1) /\
  In (LogInsert 0 (S n) (Some 0%nat)) (effects s).
Proof.
  intros Hn. cbv zeta. rewrite app_assoc, run_app.
  destruct (wrap_scenario_pre n Hn) as (os & q & fx & Hpre & Hos & Hq).
  rewrite Hpre.
  unfold run. simpl fold_left.
  replace (2 ^ 32 mod 2 ^ 32) with 0 by reflexivity.
  rewrite Hos, Hq. unfold pending_insert.
  cbn [oneshots log set_pending set_oneshots set_next_id
       sender_send sent pending effects incoming next_id set_sent].
  rewrite lookup_insert_eq, insert_insert.
  simpl. rewrite Resolver_decode_response by lia.
  unfold update_oneshot at 1. simpl. subst n.
  rewrite !lookup_insert_eq. unfold oneshot_send, update_oneshot. simpl.
  rewrite !lookup_snoc_last. simpl. rewrite !insert_snoc_last. simpl.
  assert (Hq' : forall x, (q ++ [x]) !! length os = Some x)
    by (intros x; rewrite <- Hq; apply lookup_snoc_last).
  split; [|split; [|split]].
  - eexists. rewrite lookup_snoc_last, Hq'. done.
  - reflexivity.
  - unfold Response_poll. simpl. rewrite lookup_snoc_last. reflexivity.
  - unfold log. simpl. rewrite !in_app_iff. simpl. tauto.
Qed.

(** A [Response] that resolved read its value from its slot. *)
Lemma Response_poll_slot (s : mux) (j : nat) (o : oneshot) (st et : ty) :
  oneshots s !! j = Some o ->
  (forall v, Response_poll s j st et = Ready v ->
     exists m rest, os_slot o = Some m /\ pop (TResult st et) m = Ok (VOk v, rest)) /\
  (forall e, Response_poll s j st et = AppError e ->
     exists m rest, os_slot o = Some m /\ pop (TResult st et) m = Ok (VErr e, rest)).
Proof.
  intros Hj. unfold Response_poll. rewrite Hj.
  destruct (os_slot o) as [m|]; [|destruct (os_tx_dropped o); split; intros; discriminate].
  destruct (pop (TResult st et) m) as [[v' rest]|err] eqn:Hp; [|split; intros; discriminate].
  split; intros x Hx; destruct v'; try discriminate; injection Hx as <-; eauto.
Qed.

(** Handles with the same frame are the same handle. *)
Lemma pairing_inv_frame_inj (s : mux) (evs : list event) (j j' : nat) (o o' : oneshot) :
  pairing_inv s evs -> oneshots s !! j = Some o -> oneshots s !! j' = Some o' ->
  os_frame o' = os_frame o -> j' = j.
Proof.
  intros Hinv Hj Hj' Hf.
  pose proof (keys_lookup_Some s j o Hj) as Kj.
  pose proof (keys_lookup_Some s j' o' Hj') as Kj'.
  destruct (inv_frames _ _ Hinv _ _ _ Kj) as (n1 & p1 & E1).
  destruct (inv_frames _ _ Hinv _ _ _ Kj') as (n2 & p2 & E2).
  rewrite Hf, E1 in E2. injection E2 as Eid _ _.
  eapply NoDup_lookup; [apply (inv_nodup _ _ Hinv)| |].
  - rewrite list_lookup_fmap, Kj'. simpl. reflexivity.
  - rewrite list_lookup_fmap, Kj. simpl. by rewrite Eid.
Qed.

Lemma count_requests_app (l1 l2 : list event) :
  count_requests (l1 ++ l2) = (count_requests l1 + count_requests l2)%nat.
Proof. unfold count_requests. by rewrite filter_app, length_app. Qed.

Lemma count_requests_churn (n j0 : nat) : count_requests (churn n j0) = n.
Proof.
  revert j0. induction n as [|n IH]; intros j0; [done|].
  change (churn (S n) j0) with ([EvRequest "Ping" (ping 7); EvDrop j0] ++ churn n (S j0)).
  rewrite count_requests_app, IH. reflexivity.
Qed.

Lemma wrap_gap_val : Z.of_nat wrap_gap = 2 ^ 32 - 1.
Proof. unfold wrap_gap. rewrite Z2Nat.id; lia. Qed.

Lemma wrap_events_count : Z.of_nat (count_requests wrap_events) = 2 ^ 32 + 1.
Proof.
  unfold wrap_events. rewrite !count_requests_app, count_requests_churn.
  change (count_requests [EvRequest "Ping" (ping 0)]) with 1%nat.
  change (count_requests [EvRequest "Ping" (ping 1); EvDeliver 0 (Ok (pong 1))]) with 1%nat.
  pose proof wrap_gap_val. lia.
Qed.

(** C1 (amended): as long as at most [2^32] requests were made on the
    multiplexer, so that no two of its requests share an id, every
    [Response] [j] belongs to the request frame it sent (kind 0, its own
    id), no other [Response] has that frame, and if it resolves to a value
    or an application error, that is exactly what the peer answered to that
    frame, whatever the order of the answers. *)
Theorem C1_response_pairing (evs : list event) (j : nat) (o : oneshot) (st et : ty) :
  Z.of_nat (count_requests evs) <= 2 ^ 32 ->
  oneshots (run multiplex_init evs) !! j = Some o ->
  (exists name p, sent (run multiplex_init evs) !! os_frame o =
                    Some [VU8 0; VU32 (os_id o); VStr name; p]) /\
  (forall j' o', oneshots (run multiplex_init evs) !! j' = Some o' ->
     os_frame o' = os_frame o -> j' = j) /\
  (forall v, Response_poll (run multiplex_init evs) j st et = Ready v ->
     In (EvDeliver (os_frame o) (Ok v)) evs) /\
  (forall e, Response_poll (run multiplex_init evs) j st et = AppError e ->
     In (EvDeliver (os_frame o) (Err e)) evs).
Proof.
  intros Hle Hj. pose proof (pairing_inv_run evs Hle) as Hinv.
  destruct (Response_poll_slot _ _ _ st et Hj) as [Hready Happ].
  split; [|split; [|split]].
  - exact (inv_frames _ _ Hinv _ _ _ (keys_lookup_Some _ _ _ Hj)).
  - intros j' o' Hj' Hf. exact (pairing_inv_frame_inj _ _ _ _ _ _ Hinv Hj Hj' Hf).
  - intros v Hv. destruct (Hready v Hv) as (m & rest & Hm & Hp).
    destruct (inv_slot _ _ Hinv _ _ _ Hj Hm) as (res & Hin & ->).
    apply pop_result_value in Hp. destruct res; simpl in Hp; congruence.
  - intros e He. destruct (Happ e He) as (m & rest & Hm & Hp).
    destruct (inv_slot _ _ Hinv _ _ _ Hj Hm) as (res & Hin & ->).
    apply pop_result_value in Hp. destruct res; simpl in Hp; congruence.
Qed.

Lemma C1_response_pairing_witness :
  (Z.of_nat (count_requests fan_out_events) <= 2 ^ 32 /\
   oneshots (run multiplex_init fan_out_events) !! 0%nat =
     Some (mk_oneshot (Some [VOk (pong 2)]) true false 0 0)) /\
  Response_poll (run multiplex_init fan_out_events) 0 (TStruct "Pong") TUnit = Ready (pong 2) /\
  In (EvDeliver 0 (Ok (pong 2))) fan_out_events.
Proof.
  assert (H : Z.of_nat (count_requests fan_out_events) <= 2 ^ 32 /\
              oneshots (run multiplex_init fan_out_events) !! 0%nat =
                Some (mk_oneshot (Some [VOk (pong 2)]) true false 0 0))
    by (split; vm_compute; [discriminate | reflexivity]).
  split; [exact H|].
  assert (Hp : Response_poll (run multiplex_init fan_out_events) 0 (TStruct "Pong") TUnit
               = Ready (pong 2)) by (vm_compute; reflexivity).
  split; [exact Hp|].
  destruct H as [Hle Hj].
  destruct (C1_response_pairing fan_out_events 0 _ (TStruct "Pong") TUnit Hle Hj)
    as (_ & _ & Hready & _).
  exact (Hready _ Hp).
Defined.

(** C1 counterexample: the id is a [u32] taken from a counter that wraps.
    [Ping(0)] is kept, [2^32 - 1] requests come and go, then [Ping(1)]
    gets id 0 again.  The peer's answer [Pong(1)] to the frame of
    [Ping(0)] resolves the [Response] of [Ping(1)], whose own frame was
    never answered. *)
Lemma C1_wrap_counterexample :
  let s := run multiplex_init wrap_events in
  Z.of_nat (count_requests wrap_events) = 2 ^ 32 + 1 /\
  exists o, oneshots s !! S wrap_gap = Some o /\
    sent s !! os_frame o = Some (ping_frame 0 1) /\
    sent s !! 0%nat = Some (ping_frame 0 0) /\
    Response_poll s (S wrap_gap) (TStruct "Pong") TUnit = Ready (pong 1) /\
    In (EvDeliver 0 (Ok (pong 1))) wrap_events /\
    ~ In (EvDeliver (os_frame o) (Ok (pong 1))) wrap_events.
Proof.
  cbv zeta. split; [exact wrap_events_count|].
  destruct (wrap_scenario wrap_gap wrap_gap_val)
    as ((o & Ho & Hid & Hfr & Hsent) & Hsent0 & Hpoll & _).
  unfold wrap_events. exists o. rewrite Hfr.
  split; [exact Ho|]. split; [exact Hsent|]. split; [exact Hsent0|].
  split; [exact Hpoll|]. split.
  - rewrite !in_app_iff. right. right. right. left. reflexivity.
  - rewrite !in_app_iff. intros [H | [H | H]].
    + destruct H as [H | []]. discriminate.
    + exact (churn_no_deliver _ _ _ _ H).
    + destruct H as [H | [H | []]]; [discriminate | injection H as H; discriminate].
Qed.

(* ------------------------------------------------------------------ *)
(** ** Discipline of the pending table *)

Lemma removals_app (c : nat) (l1 l2 : list effect) :
  removals c (l1 ++ l2) = (removals c l1 + removals c l2)%nat.
Proof. induction l1 as [|e l1 IH]; simpl; [done|]. rewrite IH. lia. Qed.

Lemma pending_target (s : mux) (evs : list event) (id : RequestId) (c : nat) :
  pairing_inv s evs -> pending s !! id = Some c ->
  exists o, oneshots s !! c = Some o /\ os_id o = id.
Proof.
  intros Hinv H. destruct (inv_pending _ _ Hinv id c H) as (k & Hk).
  destruct (keys_lookup_inv s c id k Hk) as (o & Ho & Hid & _). eauto.
Qed.

Lemma pending_owner (s : mux) (evs : list event) (j c : nat) (o : oneshot) :
  pairing_inv s evs -> oneshots s !! j = Some o -> pending s !! os_id o = Some c -> c = j.
Proof.
  intros Hinv Hj Hc. destruct (pending_target s evs _ c Hinv Hc) as (o' & Ho' & Hid).
  eapply NoDup_lookup; [apply (inv_nodup _ _ Hinv)| |].
  - rewrite list_lookup_fmap. fold (keys s). rewrite (keys_lookup_Some _ _ _ Ho'). done.
  - rewrite list_lookup_fmap. fold (keys s). rewrite (keys_lookup_Some _ _ _ Hj).
    simpl. by rewrite Hid.
Qed.

Lemma update_oneshot_length (c : nat) (f : oneshot -> oneshot) (s : mux) :
  length (oneshots (update_oneshot c f s)) = length (oneshots s).
Proof.
  unfold update_oneshot. destruct (oneshots s !! c); simpl; [|done].
  apply length_insert.
Qed.

(** Updating a handle whose sender was already taken out. *)
Lemma removal_inv_update_done (s : mux) (c : nat) (f : oneshot -> oneshot) :
  removal_inv s ->
  (forall o, oneshots s !! c = Some o -> removals c (effects s) = 1%nat) ->
  removal_inv (update_oneshot c f s).
Proof.
  intros [Hins Hown Hh Hfr] Hdone.
  destruct (update_oneshot_fields c f s) as (En & Ep & Es & Ei & Ee).
  constructor; rewrite ?Ee, ?Ep; eauto.
  - intros c' o' H. rewrite update_oneshot_lookup in H. case_decide; subst; [|eauto].
    destruct (oneshots s !! c) as [o|] eqn:Ho; simpl in H; simplify_eq.
    left. specialize (Hdone o eq_refl).
    destruct (Hh c o Ho) as [[_ Hn] | [Hz _]]; [done | lia].
  - intros c' Hc'. rewrite update_oneshot_length in Hc'. eauto.
Qed.

(** Taking out of the table an id that is not in it. *)
Lemma removal_inv_remove_none (s : mux) (w : remover) (id : RequestId) :
  removal_inv s -> pending s !! id = None ->
  removal_inv (log (LogRemove w id None) (set_pending (delete id (pending s)) s)).
Proof.
  intros [Hins Hown Hh Hfr] Hn. unfold log, set_pending. simpl.
  rewrite (delete_id _ _ Hn).
  constructor; simpl.
  - intros i c d H. apply in_app_or in H as [H | [H | []]]; [by eapply Hins | discriminate].
  - intros j i c H. apply in_app_or in H as [H | [H | []]]; [by eapply Hown | discriminate].
  - intros c o Ho. rewrite removals_app. simpl. rewrite Nat.add_0_r. eauto.
  - intros c Hc. rewrite removals_app. simpl. rewrite Nat.add_0_r. eauto.
Qed.

(** Taking out of the table the entry of handle [c], by the resolver or
    by [c]'s own [Response]. *)
Lemma removal_inv_remove_some (s : mux) (evs : list event) (w : remover)
  (id : RequestId) (c : nat) :
  pairing_inv s evs -> removal_inv s -> pending s !! id = Some c ->
  (forall j, w = ByDrop j -> j = c) ->
  removal_inv (log (LogRemove w id (Some c)) (set_pending (delete id (pending s)) s)) /\
  removals c (effects (log (LogRemove w id (Some c))
                         (set_pending (delete id (pending s)) s))) = 1%nat.
Proof.
  intros Hinv [Hins Hown Hh Hfr] Hc Hw.
  destruct (pending_target s evs id c Hinv Hc) as (o & Ho & Hid).
  assert (Hz : removals c (effects s) = 0%nat).
  { destruct (Hh c o Ho) as [[_ Hn] | [Hz _]]; [by destruct (Hn id) | done]. }
  assert (Honly : forall i, pending s !! i = Some c -> i = id).
  { intros i Hi. destruct (pending_target s evs i c Hinv Hi) as (o' & Ho' & Hid').
    rewrite Ho in Ho'. injection Ho' as <-. congruence. }
  unfold log, set_pending. simpl. rewrite removals_app, Hz. simpl.
  rewrite Nat.eqb_refl. split; [|done].
  constructor; simpl.
  - intros i c' d H. apply in_app_or in H as [H | [H | []]]; [by eapply Hins | discriminate].
  - intros j i c' H. apply in_app_or in H as [H | [H | []]]; [by eapply Hown|].
    injection H as Ew _ Ec. subst w c'. symmetry. by apply Hw.
  - intros c' o' Ho'. rewrite removals_app. simpl.
    destruct (Nat.eqb_spec c c') as [<- | Hne].
    + left. rewrite Hz. split; [done|]. intros i Hi.
      apply lookup_delete_Some in Hi as [Hne Hi]. apply Hne. symmetry. by apply Honly.
    + rewrite Nat.add_0_r.
      destruct (Hh c' o' Ho') as [[Hone Hn] | (Hz' & Hp & Hsl & Hrx)].
      * left. split; [done|]. intros i Hi. apply lookup_delete_Some in Hi as [_ Hi].
        by apply (Hn i).
      * right. split; [done|]. split; [|done].
        rewrite lookup_delete_ne; [done|]. intros E. rewrite <- E in Hp. congruence.
  - intros c' Hc'. rewrite removals_app. simpl.
    destruct (Nat.eqb_spec c c') as [<- | _].
    + apply lookup_lt_Some in Ho. lia.
    + rewrite Nat.add_0_r. eauto.
Qed.

Lemma removal_inv_drop (s : mux) (evs : list event) (j : nat) :
  pairing_inv s evs -> removal_inv s -> removal_inv (Response_drop j s).
Proof.
  intros Hinv Hrm. unfold Response_drop.
  destruct (oneshots s !! j) as [o|] eqn:Hj; [|done].
  destruct (os_rx_dropped o) eqn:Hrx; [done|]. cbv zeta.
  destruct (pending s !! os_id o) as [c|] eqn:Hc.
  - pose proof (pending_owner s evs j c o Hinv Hj Hc) as ->.
    destruct (removal_inv_remove_some s evs (ByDrop j) (os_id o) j Hinv Hrm Hc)
      as [H1 H2]; [intros j' E; by injection E|].
    simpl drop_tx.
    destruct (update_oneshot_fields j with_tx_dropped
      (log (LogRemove (ByDrop j) (os_id o) (Some j))
           (set_pending (delete (os_id o) (pending s)) s))) as (_ & _ & _ & _ & Ee).
    apply removal_inv_update_done; [apply removal_inv_update_done; [done | by intros]|].
    intros o' _. by rewrite Ee.
  - simpl drop_tx. apply removal_inv_update_done; [by apply removal_inv_remove_none|].
    intros o' _. simpl. rewrite removals_app. simpl. rewrite Nat.add_0_r.
    destruct (rm_handles s Hrm j o Hj) as [[H _] | (_ & Hp & _)]; [done | congruence].
Qed.

Lemma removal_inv_deliver (s : mux) (evs : list event) (k : nat) (res : result value value) :
  pairing_inv s evs -> removal_inv s -> removal_inv (step s (EvDeliver k res)).
Proof.
  intros Hinv Hrm. simpl.
  destruct (sent s !! k) as [f|] eqn:Hk; [|done].
  destruct (peer_response f res) as [g|] eqn:Hg; [|done].
  destruct (inv_sent _ _ Hinv k f Hk) as (j & id & name & p & Hkj & ->).
  apply peer_response_shape in Hg as [Hid ->].
  rewrite Resolver_decode_response by exact Hid. cbv zeta.
  destruct (pending s !! id) as [c|] eqn:Hc; [|by apply removal_inv_remove_none].
  destruct (removal_inv_remove_some s evs ByResolver id c Hinv Hrm Hc)
    as [H1 H2]; [discriminate|].
  unfold oneshot_send.
  destruct (oneshots _ !! c) as [o|]; [|done].
  destruct (os_rx_dropped o); simpl; apply removal_inv_update_done; by auto.
Qed.

Lemma removal_inv_request (s : mux) (evs : list event) (name : string) (r : value) :
  pairing_inv s evs -> removal_inv s -> Z.of_nat (count_requests evs) < 2 ^ 32 ->
  removal_inv (step s (EvRequest name r)).
Proof.
  intros Hinv [Hins Hown Hh Hfr] Hlt.
  assert (Hrange : 0 <= next_id s < 2 ^ 32) by (rewrite (inv_count _ _ Hinv); lia).
  assert (Hmod : next_id s mod 2 ^ 32 = next_id s) by (apply Z.mod_small; lia).
  assert (Hnone : pending s !! next_id s = None).
  { destruct (pending s !! next_id s) as [c|] eqn:E; [|done].
    destruct (inv_pending _ _ Hinv _ _ E) as (k & Hk). apply (inv_ids _ _ Hinv) in Hk. lia. }
  unfold step, Outgoing_request, Outgoing_next_id. cbv beta iota zeta.
  rewrite Hmod.
  destruct (build_request (next_id s) name r) as [msg|pmsg] eqn:Hb; simpl.
  - unfold pending_insert. simpl. rewrite Hnone. simpl.
    unfold sender_send, log, set_pending, set_oneshots, set_next_id. simpl.
    rewrite <- !app_assoc. simpl.
    set (new := [LogFetchAdd (next_id s); LogInsert (next_id s) (length (oneshots s)) None;
                 LogSend (length (sent s))]).
    assert (Hrem : forall c, removals c (effects s ++ new) = removals c (effects s))
      by (intros c; rewrite removals_app; simpl; lia).
    constructor; simpl.
    + intros i c d H. apply in_app_or in H as [H | H]; [by eapply Hins|].
      simpl in H. intuition discriminate.
    + intros j i c H. apply in_app_or in H as [H | H]; [by eapply Hown|].
      simpl in H. intuition discriminate.
    + intros c o H. rewrite Hrem. apply lookup_app_Some in H as [H | [Hge H]].
      * pose proof (lookup_lt_Some _ _ _ H) as Hlt'.
        destruct (Hh c o H) as [[Hone Hn] | (Hz & Hp & Hsl & Hrx)].
        -- left. split; [done|]. intros i Hi.
           apply lookup_insert_Some in Hi as [[_ E] | [_ Hi]]; [lia | by apply (Hn i)].
        -- right. split; [done|]. split; [|done].
           rewrite lookup_insert_ne; [done|].
           pose proof (inv_ids _ _ Hinv _ _ _ (keys_lookup_Some _ _ _ H)). lia.
      * apply list_lookup_singleton_Some in H as [Hc <-].
        assert (c = length (oneshots s)) as -> by lia.
        right. split; [apply Hfr; lia|]. simpl. by rewrite lookup_insert_eq.
    + intros c Hc. rewrite Hrem. rewrite length_app in Hc. simpl in Hc. apply Hfr. lia.
  - unfold log, set_next_id. constructor; simpl.
    + intros i c d H. apply in_app_or in H as [H | [H | []]]; [by eapply Hins | discriminate].
    + intros j i c H. apply in_app_or in H as [H | [H | []]]; [by eapply Hown | discriminate].
    + intros c o H. rewrite removals_app. simpl. rewrite Nat.add_0_r. eauto.
    + intros c Hc. rewrite removals_app. simpl. rewrite Nat.add_0_r. eauto.
Qed.

Lemma removal_inv_init : removal_inv multiplex_init.
Proof.
  constructor; simpl.
  - intros id c d [].
  - intros j id c [].
  - intros c o H. by rewrite lookup_nil in H.
  - done.
Qed.

Lemma removal_inv_run (evs : list event) :
  Z.of_nat (count_requests evs) <= 2 ^ 32 -> removal_inv (run multiplex_init evs).
Proof.
  induction evs as [|ev evs IH] using rev_ind; intros Hle.
  - apply removal_inv_init.
  - pose proof (count_requests_app_le evs ev) as Hmono.
    assert (Hinv : pairing_inv (run multiplex_init evs) evs) by (apply pairing_inv_run; lia).
    rewrite run_snoc. specialize (IH ltac:(lia)).
    destruct ev as [name r | j | k res].
    + eapply removal_inv_request; [exact Hinv | exact IH |].
      rewrite count_requests_snoc in Hle. simpl in Hle. lia.
    + eapply removal_inv_drop; [exact Hinv | exact IH].
    + eapply removal_inv_deliver; [exact Hinv | exact IH].
Qed.

(** The effects of one [Outgoing::request] that returns: the counter is
    bumped, the entry is inserted, and only then the frame is sent. *)
Lemma Outgoing_request_effects (s s' : mux) (name : string) (r : value) (c : nat) :
  Outgoing_request s name r = (s', Returned c) ->
  exists d,
    effects s' = effects s ++ [LogFetchAdd (next_id s);
                               LogInsert (next_id s mod 2 ^ 32) c d;
                               LogSend (length (sent s))] /\
    sent s' = sent s ++ [[VU8 0; VU32 (next_id s mod 2 ^ 32); VStr name; r]] /\
    pending s' !! (next_id s mod 2 ^ 32) = Some c.
Proof.
  unfold Outgoing_request, Outgoing_next_id. cbv beta iota zeta.
  destruct (build_request (next_id s mod 2 ^ 32) name r) as [msg|pmsg] eqn:Hb;
    [|discriminate].
  apply build_request_shape in Hb. subst msg. intros H. injection H as <- <-.
  unfold pending_insert. simpl.
  exists (pending s !! (next_id s mod 2 ^ 32)).
  destruct (pending s !! (next_id s mod 2 ^ 32)) as [d|] eqn:Hd; simpl.
  - unfold update_oneshot. simpl.
    destruct ((oneshots s ++ _) !! d); simpl;
      rewrite <- !app_assoc; simpl; rewrite lookup_insert_eq; done.
  - rewrite <- !app_assoc. simpl. rewrite lookup_insert_eq. done.
Qed.

(** C2 (amended): as long as at most [2^32] requests were made on the
    multiplexer, no insert into the pending table displaces an entry; a
    [Response] only takes out its own entry; each entry of the table
    belongs to a live handle with that id that has no answer yet; each
    handle's entry is taken out at most once, and exactly once when the
    handle was dropped or answered, after which the table holds it no
    more.  Every returning [Outgoing::request] inserts its entry before
    it enqueues the frame that carries the same id. *)
Theorem C2_pending_discipline (evs : list event) :
  Z.of_nat (count_requests evs) <= 2 ^ 32 ->
  (forall id c d, ~ In (LogInsert id c (Some d)) (effects (run multiplex_init evs))) /\
  (forall j id c, In (LogRemove (ByDrop j) id (Some c)) (effects (run multiplex_init evs)) ->
     c = j) /\
  (forall id c, pending (run multiplex_init evs) !! id = Some c ->
     exists o, oneshots (run multiplex_init evs) !! c = Some o /\ os_id o = id /\
               os_slot o = None /\ os_rx_dropped o = false) /\
  (forall c o, oneshots (run multiplex_init evs) !! c = Some o ->
     (removals c (effects (run multiplex_init evs)) <= 1)%nat /\
     (os_rx_dropped o = true \/ os_slot o <> None ->
        removals c (effects (run multiplex_init evs)) = 1%nat /\
        forall id, pending (run multiplex_init evs) !! id <> Some c)) /\
  (forall s s' name r c, Outgoing_request s name r = (s', Returned c) ->
     exists d,
       effects s' = effects s ++ [LogFetchAdd (next_id s);
                                  LogInsert (next_id s mod 2 ^ 32) c d;
                                  LogSend (length (sent s))] /\
       sent s' = sent s ++ [[VU8 0; VU32 (next_id s mod 2 ^ 32); VStr name; r]] /\
       pending s' !! (next_id s mod 2 ^ 32) = Some c).
Proof.
  intros Hle. pose proof (pairing_inv_run evs Hle) as Hinv.
  destruct (removal_inv_run evs Hle) as [Hins Hown Hh Hfr].
  split; [exact Hins|]. split; [exact Hown|]. split; [|split].
  - intros id c Hc. destruct (pending_target _ _ id c Hinv Hc) as (o & Ho & Hid).
    exists o. split; [done|]. split; [done|].
    destruct (Hh c o Ho) as [[_ Hn] | (_ & _ & Hsl & Hrx)]; [by destruct (Hn id) | done].
  - intros c o Ho.
    destruct (Hh c o Ho) as [[Hone Hn] | (Hz & Hp & Hsl & Hrx)].
    + split; [lia|]. intros _. done.
    + split; [lia|]. intros [H | H]; congruence.
  - intros s s' name r c H. exact (Outgoing_request_effects s s' name r c H).
Qed.

Lemma C2_pending_discipline_witness :
  Z.of_nat (count_requests cancel_events) <= 2 ^ 32 /\
  removals 0 (effects (run multiplex_init cancel_events)) = 1%nat.
Proof.
  assert (Hle : Z.of_nat (count_requests cancel_events) <= 2 ^ 32)
    by (vm_compute; discriminate).
  split; [exact Hle|].
  assert (Ho : oneshots (run multiplex_init cancel_events) !! 0%nat =
               Some (mk_oneshot None true true 0 0)) by (vm_compute; reflexivity).
  destruct (C2_pending_discipline cancel_events Hle) as (_ & _ & _ & Hh & _).
  destruct (Hh 0%nat _ Ho) as [_ Hdone].
  exact (proj1 (Hdone (or_introl eq_refl))).
Defined.

(** C2 counterexample: after [2^32] requests the id 0 comes back; the
    [Outgoing::request] of [Ping(1)] overwrites in the table the entry of
    the still live [Ping(0)] handle, which is thus taken out neither by
    the resolver nor by its [Response]. *)
Lemma C2_wrap_counterexample :
  Z.of_nat (count_requests wrap_events) = 2 ^ 32 + 1 /\
  In (LogInsert 0 (S wrap_gap) (Some 0%nat)) (effects (run multiplex_init wrap_events)).
Proof.
  split; [exact wrap_events_count|].
  destruct (wrap_scenario wrap_gap wrap_gap_val) as (_ & _ & _ & Hin).
  exact Hin.
Qed.

Lemma build_request_ok (id : RequestId) (name : string) (r : value) :
  serializable r = true -> build_request id name r = Returned [VU8 0; VU32 id; VStr name; r].
Proof. intros H. unfold build_request, push. simpl. rewrite H. reflexivity. Qed.

Lemma Outgoing_request_returns (s : mux) (name : string) (r : value) :
  serializable r = true -> snd (Outgoing_request s name r) = Returned (length (oneshots s)).
Proof.
  intros H. unfold Outgoing_request, Outgoing_next_id. cbv beta iota zeta.
  rewrite build_request_ok by exact H. reflexivity.
Qed.

(** C3: the frame enqueued by a returning [Outgoing::request] is the
    kind byte [Request] (0), the id taken from the counter as [u32], the
    name and the payload, in this order; the frame sent by
    [Responder::respond] is the kind byte [Response] (1), the captured id
    and the result as [Ok]/[Err] tagged value, in this order. *)
Theorem C3_frame_layout :
  (forall s name r, serializable r = true ->
     exists s', Outgoing_request s name r = (s', Returned (length (oneshots s))) /\
       sent s' = sent s ++ [[VU8 (Type_as_u8 Request); VU32 (next_id s mod 2 ^ 32);
                             VStr name; r]]) /\
  (forall rs res origin, serializable (result_value res) = true ->
     Responder_respond rs res origin =
       Returned (origin ++ [[VU8 (Type_as_u8 Response); VU32 (responder_id rs);
                             result_value res]])).
Proof.
  split.
  - intros s name r H. exists (fst (Outgoing_request s name r)).
    rewrite <- (Outgoing_request_returns s name r H), <- surjective_pairing.
    split; [done|].
    destruct (Outgoing_request_effects s (fst (Outgoing_request s name r)) name r
                (length (oneshots s))) as (d & _ & Hs & _); [|exact Hs].
    rewrite <- (Outgoing_request_returns s name r H). apply surjective_pairing.
  - intros rs res origin H. unfold Responder_respond, push. simpl. rewrite H. reflexivity.
Qed.

Lemma C3_frame_layout_witness :
  sent (fst (Outgoing_request multiplex_init "Ping" (ping 1))) =
    [[VU8 0; VU32 0; VStr "Ping"; ping 1]] /\
  Responder_respond (mk_responder 5) (Ok (pong 2)) [] = Returned [[VU8 1; VU32 5; VOk (pong 2)]].
Proof.
  destruct C3_frame_layout as [Hreq Hresp]. split.
  - destruct (Hreq multiplex_init "Ping" (ping 1) eq_refl) as (s' & E & Hs).
    rewrite E. exact Hs.
  - exact (Hresp (mk_responder 5) (Ok (pong 2)) [] eq_refl).
Defined.

Lemma Resolver_decode_next_id (s s' : mux) (msg : MessageBuf) :
  Resolver_decode s msg = Ok s' -> next_id s' = next_id s.
Proof.
  unfold Resolver_decode, oneshot_send, update_oneshot, incoming_send.
  intros H. repeat case_match; simplify_eq; reflexivity.
Qed.

Lemma step_next_id (s : mux) (ev : event) :
  next_id (step s ev) =
    if is_request ev then (next_id s + 1) mod 2 ^ usize_bits else next_id s.
Proof.
  destruct ev as [name r | j | k res]; simpl.
  - unfold Outgoing_request, Outgoing_next_id. cbv beta iota zeta.
    destruct (build_request _ name r); simpl; [|done].
    unfold pending_insert. simpl.
    destruct (pending s !! (next_id s mod 2 ^ 32)) as [d|]; simpl; [|done].
    unfold update_oneshot. simpl. by case_match.
  - exact (bn_next _ _ (Response_drop_benign j s)).
  - repeat case_match; try done. eapply Resolver_decode_next_id. eassumption.
Qed.

Lemma next_id_run (evs : list event) :
  next_id (run multiplex_init evs) = Z.of_nat (count_requests evs) mod 2 ^ usize_bits.
Proof.
  induction evs as [|ev evs IH] using rev_ind; [done|].
  rewrite run_snoc, step_next_id, count_requests_snoc, IH.
  destruct (is_request ev); [|by rewrite Nat.add_0_r].
  rewrite Nat2Z.inj_add. simpl. rewrite Zplus_mod_idemp_l. done.
Qed.

Lemma id_of_count (n : nat) :
  (Z.of_nat n mod 2 ^ usize_bits) mod 2 ^ 32 = Z.of_nat n mod 2 ^ 32.
Proof.
  unfold usize_bits. apply Z.mod_mod_divide. exists (2 ^ 32). reflexivity.
Qed.

(** C9: one counter, starting at 0 and shared by every request of the
    multiplexer, is fetched and incremented (modulo [2^64], a [usize]) by
    each call of [Outgoing::request], returning or not; the id of the
    [n]-th call is the fetched value as [u32], [(n - 1) mod 2^32], and it
    is the id written in the frame the call sends. *)
Theorem C9_request_ids (evs : list event) (name : string) (r : value) :
  let n := count_requests (evs ++ [EvRequest name r]) in
  next_id multiplex_init = 0 /\
  next_id (run multiplex_init evs) = (Z.of_nat n - 1) mod 2 ^ usize_bits /\
  next_id (run multiplex_init (evs ++ [EvRequest name r])) = Z.of_nat n mod 2 ^ usize_bits /\
  fst (Outgoing_next_id (run multiplex_init evs)) = (Z.of_nat n - 1) mod 2 ^ 32 /\
  (serializable r = true ->
     sent (run multiplex_init (evs ++ [EvRequest name r])) =
       sent (run multiplex_init evs) ++ [[VU8 0; VU32 ((Z.of_nat n - 1) mod 2 ^ 32);
                                          VStr name; r]]).
Proof.
  cbv zeta.
  assert (Hn : Z.of_nat (count_requests (evs ++ [EvRequest name r])) - 1 =
               Z.of_nat (count_requests evs))
    by (rewrite count_requests_snoc; simpl; lia).
  rewrite Hn.
  assert (Hid : fst (Outgoing_next_id (run multiplex_init evs)) =
                Z.of_nat (count_requests evs) mod 2 ^ 32)
    by (simpl; rewrite next_id_run; apply id_of_count).
  split; [done|]. split; [apply next_id_run|]. split.
  - apply next_id_run.
  - split; [exact Hid|]. intros Hr. rewrite run_snoc. simpl step.
    destruct (Outgoing_request_effects (run multiplex_init evs)
                (fst (Outgoing_request (run multiplex_init evs) name r)) name r
                (length (oneshots (run multiplex_init evs)))) as (d & _ & Hs & _).
    + rewrite <- (Outgoing_request_returns _ name r Hr). apply surjective_pairing.
    + rewrite Hs. simpl in Hid. rewrite Hid. done.
Qed.

Lemma C9_request_ids_witness :
  sent (run multiplex_init ([EvRequest "Ping" (ping 1)] ++ [EvRequest "Ping" (ping 2)])) =
    [[VU8 0; VU32 0; VStr "Ping"; ping 1]; [VU8 0; VU32 1; VStr "Ping"; ping 2]].
Proof.
  destruct (C9_request_ids [EvRequest "Ping" (ping 1)] "Ping" (ping 2))
    as (_ & _ & _ & _ & Hs).
  rewrite (Hs eq_refl). reflexivity.
Defined.

(** C10: when the payload does not serialize, [Outgoing::request] and
    [Responder::respond] panic (the [unwrap] of [push]); neither has an
    error in its return value.  The counter was bumped before the panic,
    and nothing was inserted or sent. *)
Theorem C10_encode_panics :
  (forall s name r, serializable r = false ->
     exists pmsg, Outgoing_request s name r =
       (log (LogFetchAdd (next_id s))
            (set_next_id ((next_id s + 1) mod 2 ^ usize_bits) s), Panicked pmsg)) /\
  (forall rs res origin, serializable (result_value res) = false ->
     exists pmsg, Responder_respond rs res origin = Panicked pmsg).
Proof.
  split.
  - intros s name r H. unfold Outgoing_request, Outgoing_next_id. cbv beta iota zeta.
    unfold build_request, push. simpl. rewrite H. simpl. eexists. reflexivity.
  - intros rs res origin H. unfold Responder_respond, push. simpl. rewrite H.
    eexists. reflexivity.
Qed.

Lemma C10_encode_panics_witness :
  (exists pmsg, snd (Outgoing_request multiplex_init "Ping" VUnencodable) = Panicked pmsg) /\
  (exists pmsg, Responder_respond (mk_responder 0) (Ok VUnencodable) [] = Panicked pmsg).
Proof.
  destruct C10_encode_panics as [Hreq Hresp]. split.
  - destruct (Hreq multiplex_init "Ping" VUnencodable eq_refl) as (pmsg & E).
    exists pmsg. rewrite E. reflexivity.
  - exact (Hresp (mk_responder 0) (Ok VUnencodable) [] eq_refl).
Defined.

Lemma Incoming_events_items (items : list RequestBuf) (tail : list (result RequestBuf io_error)) :
  Incoming_events ((Ok <$> items) ++ tail) true =
    (Item <$> items) ++ Incoming_events tail true.
Proof. induction items as [|x items IH]; simpl; [done|]. f_equal. exact IH. Qed.

(** C4: a read error, or a decode error (among them a kind byte other
    than 0 and 1), is pushed once at the end of the [Incoming] queue, the
    loop stops with the following reads never performed, and the socket
    is shut down; a consumer then sees the requests queued before and
    that error last.  On end of stream nothing is pushed, the loop stops,
    the socket is shut down, and the stream ends after the queued requests
    without an error. *)
Theorem C4_resolver_termination (s : mux) (items : list RequestBuf)
  (rd : read_result) (rest : list read_result) :
  incoming s = Ok <$> items ->
  (forall e, (rd = ReadErr e \/ exists m, rd = ReadMsg m /\ Resolver_decode s m = Err e) ->
     Resolver_dispatch s (rd :: rest) =
       mk_resolver_exit (set_incoming (incoming s ++ [Err e]) s) rest true true /\
     Incoming_events (incoming s ++ [Err e]) true = (Item <$> items) ++ [StreamErr e]) /\
  (rd = ReadEof ->
     Resolver_dispatch s (rd :: rest) = mk_resolver_exit s rest true true /\
     Incoming_events (incoming s) true = (Item <$> items) ++ [StreamEnd]) /\
  (forall n m, 0 <= n < 256 -> n <> 0 -> n <> 1 ->
     Resolver_decode s (VU8 n :: m) = Err invalid_type_error).
Proof.
  intros Hq. split; [|split].
  - intros e [-> | (m & -> & Hm)]; simpl; [|rewrite Hm]; unfold incoming_send;
      rewrite Hq, Incoming_events_items; done.
  - intros ->. simpl. rewrite Hq. rewrite <- (app_nil_r (Ok <$> items)).
    rewrite Incoming_events_items. done.
  - intros n m Hn H0 H1. unfold Resolver_decode. rewrite pop_u8_cons by lia.
    unfold Type_from_u8. rewrite (proj2 (Z.eqb_neq n 0) H0), (proj2 (Z.eqb_neq n 1) H1).
    done.
Qed.

Lemma C4_resolver_termination_witness :
  Resolver_dispatch multiplex_init [ReadMsg [VU8 7; VU32 0]; ReadEof] =
    mk_resolver_exit (set_incoming [Err invalid_type_error] multiplex_init) [ReadEof] true true.
Proof.
  destruct (C4_resolver_termination multiplex_init [] (ReadMsg [VU8 7; VU32 0]) [ReadEof]
              eq_refl) as (Herr & _ & Hkind).
  destruct (Herr invalid_type_error) as [Hd _].
  - right. exists [VU8 7; VU32 0]. split; [reflexivity|].
    apply Hkind; lia.
  - exact Hd.
Defined.

(** C5: a response frame whose id has no entry in the pending table is
    dropped: only the removal attempt is logged, the counter, the table,
    every oneshot, the outbound and the [Incoming] queues are unchanged,
    and the loop goes on with the next read. *)
Theorem C5_unknown_response (s : mux) (id : RequestId) (m : MessageBuf)
  (rest : list read_result) :
  0 <= id < 2 ^ 32 -> pending s !! id = None ->
  exists s',
    Resolver_dispatch s (ReadMsg (VU8 1 :: VU32 id :: m) :: rest) = Resolver_dispatch s' rest /\
    next_id s' = next_id s /\ pending s' = pending s /\ oneshots s' = oneshots s /\
    sent s' = sent s /\ incoming s' = incoming s /\
    effects s' = effects s ++ [LogRemove ByResolver id None].
Proof.
  intros Hid Hn. simpl. rewrite Resolver_decode_response by exact Hid. cbv zeta.
  rewrite Hn. eexists. split; [reflexivity|].
  simpl. rewrite (delete_id _ _ Hn). done.
Qed.

Lemma C5_unknown_response_witness :
  let s := run multiplex_init [EvRequest "Ping" (ping 10); EvDrop 0] in
  pending s !! 0 = None /\
  exists s',
    Resolver_dispatch s [ReadMsg [VU8 1; VU32 0; VOk (pong 11)]] = Resolver_dispatch s' [] /\
    oneshots s' = oneshots s.
Proof.
  cbv zeta.
  assert (Hn : pending (run multiplex_init [EvRequest "Ping" (ping 10); EvDrop 0]) !! 0 = None)
    by (vm_compute; reflexivity).
  split; [exact Hn|].
  destruct (C5_unknown_response _ 0 [VOk (pong 11)] [] ltac:(lia) Hn)
    as (s' & Hd & _ & _ & Hos & _).
  exists s'. split; [exact Hd | exact Hos].
Defined.

(* ------------------------------------------------------------------ *)
(** ** [coordinator/dispatch.rs] *)

Lemma State_eq (x y : State) : State_id x = State_id y -> x = y.
Proof. destruct x, y. simpl. by intros ->. Qed.

Lemma btree_insert_In (x y : State) (l : list State) :
  In y (btree_insert x l) <-> x = y \/ In y l.
Proof.
  induction l as [|z l IH]; simpl; [tauto|].
  destruct (Z.ltb_spec (State_id x) (State_id z)); simpl; [tauto|].
  destruct (Z.eqb_spec (State_id x) (State_id z)) as [E|]; simpl.
  - apply State_eq in E. subst z. tauto.
  - rewrite IH. tauto.
Qed.

Lemma btree_insert_sorted (x : State) (l : list State) :
  ids_sorted l -> ids_sorted (btree_insert x l).
Proof.
  induction l as [|z l IH]; simpl; [done|]. intros [Hz Hl].
  destruct (Z.ltb_spec (State_id x) (State_id z)) as [Hlt|Hge]; simpl.
  - split; [|done]. constructor; [done|].
    eapply Forall_impl; [exact Hz|]. simpl. intros y Hy. lia.
  - destruct (Z.eqb_spec (State_id x) (State_id z)); simpl; [done|].
    split; [|by apply IH]. apply Forall_forall. intros y Hy.
    apply list_elem_of_In, btree_insert_In in Hy as [<- | Hy]; [lia|].
    apply (proj1 (Forall_forall _ _) Hz). by apply list_elem_of_In.
Qed.

Lemma count_removes_app (id : ExecutorId) (l1 l2 : list coord_call) :
  count_removes id (l1 ++ l2) = (count_removes id l1 + count_removes id l2)%nat.
Proof.
  induction l1 as [|x l1 IH]; simpl; [done|]. destruct x; rewrite ?IH; lia.
Qed.

Lemma Dispatch_drop_calls (d : Dispatch) :
  calls (Dispatch_drop d) = calls (coord d) ++ removal_calls (associated d).
Proof.
  unfold Dispatch_drop, removal_calls. generalize (coord d) as c.
  induction (associated d) as [|[id] l IH]; intros c; simpl; [by rewrite app_nil_r|].
  rewrite IH. simpl. by rewrite <- app_assoc.
Qed.

Lemma count_removal_calls_out (id : ExecutorId) (l : list State) :
  ~ In (Executor id) l -> count_removes id (removal_calls l) = O.
Proof.
  induction l as [|[i] l IH]; simpl; [done|]. intros Hn.
  destruct (Z.eqb_spec i id) as [->|]; [tauto|]. apply IH. tauto.
Qed.

Lemma count_removal_calls_in (id : ExecutorId) (l : list State) :
  ids_sorted l -> In (Executor id) l -> count_removes id (removal_calls l) = 1%nat.
Proof.
  induction l as [|[i] l IH]; simpl; [done|]. intros [Hz Hl] Hin.
  destruct (Z.eqb_spec i id) as [->|Hne].
  - rewrite count_removal_calls_out; [done|]. intros Hin'.
    apply list_elem_of_In, (proj1 (Forall_forall _ _) Hz) in Hin'. simpl in Hin'. lia.
  - destruct Hin as [E|Hin]; [injection E as E; congruence|]. by apply IH.
Qed.

Lemma conn_inv_new (c0 : coordinator) : conn_inv c0 (Dispatch_new c0).
Proof.
  constructor; simpl; [|done].
  exists []. rewrite app_nil_r. split; [done|]. split; [done|].
  intros id. split; [intros (v & [])|intros []].
Qed.

Lemma conn_inv_extend (c0 : coordinator) (d d' : Dispatch) (x : coord_call) :
  conn_inv c0 d ->
  calls (coord d') = calls (coord d) ++ [x] ->
  (forall id, count_removes id [x] = O) ->
  (forall id, In (Executor id) (associated d') <->
              In (Executor id) (associated d) \/ exists v, x = CallAddExecutor v id) ->
  ids_sorted (associated d') ->
  conn_inv c0 d'.
Proof.
  intros [(during & Hc & Hr & Hiff) _] Hx Hrx Hassoc Hs. constructor; [|done].
  exists (during ++ [x]). split; [by rewrite Hx, Hc, app_assoc|]. split.
  - intros id. rewrite count_removes_app, Hr, Hrx. done.
  - intros id. rewrite Hassoc, <- Hiff. split.
    + intros (v & Hv). apply in_app_or in Hv as [Hv | [Hv | []]]; [left; eauto | right; eauto].
    + intros [(v & Hv) | (v & ->)]; exists v; apply in_or_app; [by left | right; by left].
Qed.

Lemma conn_inv_dispatch (c0 : coordinator) (d : Dispatch) (req : RequestBuf) :
  conn_inv c0 d -> conn_inv c0 (fst (Dispatch_dispatch d req)).
Proof.
  intros Hinv. unfold Dispatch_dispatch.
  destruct (String.eqb (rb_name req) "Submission");
    [|destruct (String.eqb (rb_name req) "AddWorkerGroup");
      [|destruct (String.eqb (rb_name req) "AddExecutor")]];
    [..|exact Hinv].
  - destruct (RequestBuf_decode _ req) as [[v resp]|e]; simpl; [|exact Hinv].
    eapply conn_inv_extend; [exact Hinv | reflexivity | done | | apply Hinv].
    intros id. simpl. split; [tauto|]. intros [H | (v' & E)]; [done | discriminate].
  - destruct (RequestBuf_decode _ req) as [[v resp]|e]; simpl; [|exact Hinv].
    eapply conn_inv_extend; [exact Hinv | reflexivity | done | | apply Hinv].
    intros id. simpl. split; [tauto|]. intros [H | (v' & E)]; [done | discriminate].
  - destruct (RequestBuf_decode _ req) as [[v resp]|e]; simpl; [|exact Hinv].
    assert (Hnew : conn_inv c0 (mk_dispatch
              (mk_coordinator (next_executor (coord d) + 1)
                 (calls (coord d) ++ [CallAddExecutor v (next_executor (coord d))]))
              (btree_insert (Executor (next_executor (coord d))) (associated d))
              (spawned d) (out d))).
    { eapply conn_inv_extend; [exact Hinv | reflexivity | done | |].
      - intros id. simpl. rewrite btree_insert_In. split.
        + intros [E | H]; [right; exists v; by injection E as -> | by left].
        + intros [H | (v' & E)]; [by right | left; by injection E as _ ->].
      - apply btree_insert_sorted, Hinv. }
    destruct Hnew as [Hc Hs]. by constructor.
Qed.

Lemma conn_inv_serve (c0 : coordinator) (evs : list stream_event) :
  forall d d' why rest, conn_inv c0 d -> serve d evs = (d', why, rest) -> conn_inv c0 d'.
Proof.
  induction evs as [|[req | e |] evs IH]; intros d d' why rest Hinv Hs; simpl in Hs.
  - by injection Hs as <- _ _.
  - pose proof (conn_inv_dispatch c0 d req Hinv) as Hd.
    destruct (Dispatch_dispatch d req) as [d1 [[u | st] | m]]; simpl in Hd.
    + exact (IH d1 d' why rest Hd Hs).
    + by injection Hs as <- _ _.
    + by injection Hs as <- _ _.
  - by injection Hs as <- _ _.
  - by injection Hs as <- _ _.
Qed.

(** C7: however the consumption of [Incoming] ended (end of stream,
    error, fatal request, panic, or a connection still open when dropped),
    dropping the [Dispatch] calls [remove_executor(id)] once for every
    [Executor(id)] token, and the tokens are exactly the executors added
    by [AddExecutor] requests of this connection: over the lifetime of the
    connection each of them is removed exactly once, and no other id. *)
Theorem C7_drop_releases (c0 : coordinator) (evs : list stream_event)
  (d : Dispatch) (why : end_reason) (rest : list stream_event) :
  serve (Dispatch_new c0) evs = (d, why, rest) ->
  exists during,
    calls (connection c0 evs) = calls c0 ++ during ++ removal_calls (associated d) /\
    (forall id, count_removes id during = O) /\
    (forall id, (exists v, In (CallAddExecutor v id) during) <-> In (Executor id) (associated d)) /\
    (forall id, (exists v, In (CallAddExecutor v id) during) ->
       count_removes id (during ++ removal_calls (associated d)) = 1%nat) /\
    (forall id, ~ (exists v, In (CallAddExecutor v id) during) ->
       count_removes id (during ++ removal_calls (associated d)) = O).
Proof.
  intros Hs. pose proof (conn_inv_serve c0 evs _ _ _ _ (conn_inv_new c0) Hs) as Hinv.
  destruct Hinv as [(during & Hc & Hr & Hiff) Hsorted].
  exists during. split; [|split; [exact Hr | split; [exact Hiff | split]]].
  - unfold connection. rewrite Hs, Dispatch_drop_calls, Hc. by rewrite app_assoc.
  - intros id Hadd. rewrite count_removes_app, Hr. simpl.
    apply count_removal_calls_in; [exact Hsorted | by apply Hiff].
  - intros id Hno. rewrite count_removes_app, Hr. simpl.
    apply count_removal_calls_out. by rewrite <- Hiff.
Qed.

Lemma C7_drop_releases_witness :
  let evs := [Item add_executor_req; StreamEnd] in
  serve (Dispatch_new (mk_coordinator 0 [])) evs =
    (mk_dispatch (mk_coordinator 1 [CallAddExecutor (VStruct "AddExecutor" []) 0])
                 [Executor 0] [] [[VU8 1; VU32 3; VOk (VU64 0)]], EndStream, []) /\
  exists during,
    calls (connection (mk_coordinator 0 []) evs) = [] ++ during ++ removal_calls [Executor 0] /\
    count_removes 0 (during ++ removal_calls [Executor 0]) = 1%nat.
Proof.
  cbv zeta.
  assert (Hs : serve (Dispatch_new (mk_coordinator 0 [])) [Item add_executor_req; StreamEnd] =
    (mk_dispatch (mk_coordinator 1 [CallAddExecutor (VStruct "AddExecutor" []) 0])
                 [Executor 0] [] [[VU8 1; VU32 3; VOk (VU64 0)]], EndStream, []))
    by (vm_compute; reflexivity).
  split; [exact Hs|].
  destruct (C7_drop_releases _ _ _ _ _ Hs) as (during & Hconn & _ & Hiff & Hone & _).
  exists during. split; [exact Hconn|].
  apply Hone. apply Hiff. simpl. by left.
Defined.

(** C6: a request whose name is none of [Submission], [AddWorkerGroup],
    [AddExecutor] makes [Dispatch::dispatch] return the fatal
    [Stop::Fail] invalid-request error without touching the [Dispatch],
    and the consumption of this connection's [Incoming] stops there.  For
    the three names the payload is popped as the request type of that
    name: if that fails the error is fatal in the same way, otherwise the
    matching coordinator handler is called ([submission],
    [add_worker_group] with their response futures spawned, or
    [add_executor], whose id becomes a token and is answered at once). *)
Theorem C6_dispatch_routing (d : Dispatch) (req : RequestBuf) (rest : list stream_event) :
  (rb_name req <> "Submission" -> rb_name req <> "AddWorkerGroup" ->
   rb_name req <> "AddExecutor" ->
     Dispatch_dispatch d req = (d, Returned (Err (Fail invalid_request_error))) /\
     serve d (Item req :: rest) = (d, EndStop (Fail invalid_request_error), rest)) /\
  (forall name e, In name ["Submission"; "AddWorkerGroup"; "AddExecutor"] ->
     rb_name req = name -> pop (TStruct name) (rb_msg req) = Err e ->
     Dispatch_dispatch d req = (d, Returned (Err (Fail e))) /\
     serve d (Item req :: rest) = (d, EndStop (Fail e), rest)) /\
  (forall v m, rb_name req = "Submission" -> pop (TStruct "Submission") (rb_msg req) = Ok (v, m) ->
     Dispatch_dispatch d req =
       (mk_dispatch (coord_log (CallSubmission v) (coord d)) (associated d)
                    (spawned d ++ [("Submission", rb_id req)]) (out d), Returned (Ok tt))) /\
  (forall v m, rb_name req = "AddWorkerGroup" ->
     pop (TStruct "AddWorkerGroup") (rb_msg req) = Ok (v, m) ->
     Dispatch_dispatch d req =
       (mk_dispatch (coord_log (CallAddWorkerGroup v) (coord d)) (associated d)
                    (spawned d ++ [("AddWorkerGroup", rb_id req)]) (out d), Returned (Ok tt))) /\
  (forall v m, rb_name req = "AddExecutor" -> pop (TStruct "AddExecutor") (rb_msg req) = Ok (v, m) ->
     let id := next_executor (coord d) in
     Dispatch_dispatch d req =
       (mk_dispatch (mk_coordinator (id + 1) (calls (coord d) ++ [CallAddExecutor v id]))
                    (btree_insert (Executor id) (associated d)) (spawned d)
                    (out d ++ [[VU8 1; VU32 (rb_id req); VOk (VU64 id)]]), Returned (Ok tt))).
Proof.
  unfold Dispatch_dispatch, RequestBuf_decode. split; [|split; [|split; [|split]]].
  - intros H1 H2 H3.
    rewrite (proj2 (String.eqb_neq _ _) H1), (proj2 (String.eqb_neq _ _) H2),
            (proj2 (String.eqb_neq _ _) H3).
    split; [done|]. simpl. unfold Dispatch_dispatch.
    rewrite (proj2 (String.eqb_neq _ _) H1), (proj2 (String.eqb_neq _ _) H2),
            (proj2 (String.eqb_neq _ _) H3). done.
  - intros name e Hin <- He.
    assert (Hd : Dispatch_dispatch d req = (d, Returned (Err (Fail e)))).
    { unfold Dispatch_dispatch, RequestBuf_decode.
      destruct Hin as [E | [E | [E | []]]]; rewrite <- E in He |- *; simpl;
        rewrite He; done. }
    split; [exact Hd|]. simpl. by rewrite Hd.
  - intros v m -> Hp. simpl. by rewrite Hp.
  - intros v m -> Hp. simpl. by rewrite Hp.
  - intros v m -> Hp. simpl. by rewrite Hp.
Qed.

Lemma C6_dispatch_routing_witness :
  serve (Dispatch_new (mk_coordinator 0 [])) [Item unknown_req; Item add_executor_req] =
    (Dispatch_new (mk_coordinator 0 []), EndStop (Fail invalid_request_error),
     [Item add_executor_req]).
Proof.
  destruct (C6_dispatch_routing (Dispatch_new (mk_coordinator 0 [])) unknown_req
              [Item add_executor_req]) as (Hunk & _).
  apply Hunk; discriminate.
Defined.

(* ------------------------------------------------------------------ *)
(** ** Listening sockets *)

Lemma to_socket_addr_ipv6_any (port : Z) :
  to_socket_addr "::" port = Some (mk_socket_addr ipv6_unspecified port).
Proof. reflexivity. Qed.

Lemma to_socket_addr_ipv4_any (port : Z) :
  to_socket_addr "0.0.0.0" port = Some (mk_socket_addr ipv4_unspecified port).
Proof. reflexivity. Qed.

(** C8 (counterexample): [Network::listen] on a default network and no
    port binds the unspecified IPv6 address [::], not [0.0.0.0]. *)
Lemma C8_listen_ipv6_counterexample :
  Network_listen (Network_init None) None 40000 =
    Some (mk_listener (mk_socket_addr ipv6_unspecified 0) "localhost" 40000) /\
  ipv6_unspecified <> ipv4_unspecified.
Proof.
  split.
  - unfold Network_listen, Listener_new. simpl default.
    rewrite to_socket_addr_ipv6_any. reflexivity.
  - discriminate.
Qed.

(** C8: [Network::listen] binds the unspecified IPv6 address [::] and the
    rpc [Server] the unspecified IPv4 address [0.0.0.0], both on the
    requested port (0 when [listen] gets none); the configured external
    name (["localhost"] by default) never enters the bound address and is
    only reported, with the port the system assigned, by [external_addr]. *)
Theorem C8_bind_addresses (network network' : Network)
    (rnet rnet' : rpc_Network) (port local_port : Z) :
  Listener_new network port local_port =
    Some (mk_listener (mk_socket_addr ipv6_unspecified port)
            (network_external network) local_port) /\
  Server_new rnet port local_port =
    Some (mk_server (mk_socket_addr ipv4_unspecified port)
            (hostname rnet) local_port) /\
  is_unspecified ipv6_unspecified = true /\
  is_unspecified ipv4_unspecified = true /\
  option_map listener_bound (Listener_new network port local_port) =
    option_map listener_bound (Listener_new network' port local_port) /\
  option_map server_bound (Server_new rnet port local_port) =
    option_map server_bound (Server_new rnet' port local_port) /\
  option_map Listener_external_addr (Listener_new network port local_port) =
    Some (network_external network, local_port) /\
  option_map Server_external_addr (Server_new rnet port local_port) =
    Some (hostname rnet, local_port) /\
  Network_listen network None local_port = Listener_new network 0 local_port /\
  network_external (Network_init None) = "localhost".
Proof.
  unfold Listener_new, Server_new.
  rewrite to_socket_addr_ipv6_any, to_socket_addr_ipv4_any.
  repeat split.
Qed.

(* ------------------------------------------------------------------ *)
(** ** Round trips through the resolver *)


(** A response frame for a pending id whose handle is alive: the entry
    is taken out and the payload lands in exactly that handle. *)
Lemma Resolver_decode_deliver (s : mux) (id : RequestId) (c : nat) (o : oneshot)
    (m : MessageBuf) :
  0 <= id < 2 ^ 32 -> pending s !! id = Some c -> oneshots s !! c = Some o ->
  os_rx_dropped o = false ->
  exists s', Resolver_decode s (VU8 1 :: VU32 id :: m) = Ok s' /\
    pending s' = delete id (pending s) /\ incoming s' = incoming s /\
    next_id s' = next_id s /\ sent s' = sent s /\
    oneshots s' !! c = Some (with_message m o) /\
    (forall k, k <> c -> oneshots s' !! k = oneshots s !! k).
Proof.
  intros Hid Hp Ho Hrx. rewrite Resolver_decode_response by exact Hid.
  cbv zeta. rewrite Hp. unfold oneshot_send.
  cbn [oneshots log set_pending]. rewrite Ho, Hrx. cbn [snd].
  set (s1 := log _ _).
  destruct (update_oneshot_fields c (with_message m) s1) as (E1 & E2 & E3 & E4 & _).
  eexists. split; [reflexivity|].
  rewrite E1, E2, E3, E4. split; [reflexivity|]. split; [reflexivity|].
  split; [reflexivity|]. split; [reflexivity|]. split.
  - rewrite update_oneshot_lookup, decide_True by reflexivity. simpl. by rewrite Ho.
  - intros k Hk. rewrite update_oneshot_lookup, decide_False by exact Hk. reflexivity.
Qed.

(** The frame [Outgoing::request] enqueues, decoded by the [Resolver] of
    the peer, puts on the peer's [Incoming] queue a [RequestBuf] with the
    same id, the same name and the payload as its message; and
    [RequestBuf::decode] at the payload's type gives the payload back,
    with a [Responder] for that id. *)
Theorem request_frame_roundtrip (s s' p : mux) (name : string) (r : value) (c : nat) :
  Outgoing_request s name r = (s', Returned c) ->
  exists id f, id = next_id s mod 2 ^ 32 /\ sent s' = sent s ++ [f] /\
    Resolver_decode p f = Ok (incoming_send (Ok (mk_request_buf id name [r])) p) /\
    (forall t, has_ty r t = true ->
       RequestBuf_decode t (mk_request_buf id name [r]) = Ok (r, mk_responder id)).
Proof.
  intros H. destruct (Outgoing_request_effects _ _ _ _ _ H) as (d & _ & Hs & _).
  eexists _, _. split; [reflexivity|]. split; [exact Hs|]. split.
  - unfold Resolver_decode. rewrite pop_u8_cons by lia. cbv beta iota.
    unfold Type_from_u8. cbn [Z.eqb]. cbv beta iota.
    rewrite pop_u32_cons by (apply Z.mod_pos_bound; lia). reflexivity.
  - intros t Ht. unfold RequestBuf_decode, pop. simpl. rewrite Ht. reflexivity.
Qed.

(** The frame [Responder::respond] builds, decoded by the [Resolver] of
    the requesting side while the request is pending and its [Response]
    alive, takes the entry out of the table and completes exactly that
    [Response] (no other handle changes, nothing goes to [Incoming]):
    polling it gives the success value or the application error that was
    answered, and [wait_unwrap] returns the answered [Result] itself. *)
Theorem response_frame_roundtrip (s : mux) (id : RequestId) (c : nat) (o : oneshot)
    (res : result value value) (st et : ty) :
  0 <= id < 2 ^ 32 -> pending s !! id = Some c -> oneshots s !! c = Some o ->
  os_rx_dropped o = false ->
  serializable (result_value res) = true -> has_ty (result_value res) (TResult st et) = true ->
  exists g s', Responder_respond (mk_responder id) res [] = Returned [g] /\
    Resolver_decode s g = Ok s' /\
    pending s' = delete id (pending s) /\ incoming s' = incoming s /\
    (forall k, k <> c -> oneshots s' !! k = oneshots s !! k) /\
    Response_poll s' c st et = match res with Ok v => Ready v | Err e => AppError e end /\
    Response_wait_unwrap (Response_poll s' c st et) = Some (Returned res).
Proof.
  intros Hid Hp Ho Hrx Hser Hty.
  destruct (Resolver_decode_deliver s id c o [result_value res] Hid Hp Ho Hrx)
    as (s' & Hd & Hpend & Hinc & _ & _ & Hc & Hk).
  exists [VU8 1; VU32 id; result_value res], s'.
  split; [unfold Responder_respond, push; simpl; by rewrite Hser|].
  split; [exact Hd|]. split; [exact Hpend|]. split; [exact Hinc|]. split; [exact Hk|].
  assert (Hpoll : Response_poll s' c st et =
                  match res with Ok v => Ready v | Err e => AppError e end).
  { unfold Response_poll. rewrite Hc. simpl. unfold pop. rewrite Hty.
    by destruct res. }
  split; [exact Hpoll|]. rewrite Hpoll. by destruct res.
Qed.

(** A second response frame for an id that was already answered finds
    no entry and is discarded: the first answer stays in the handle and
    neither the handles nor the table change. *)
Theorem duplicate_response_ignored (s : mux) (id : RequestId) (c : nat) (o : oneshot)
    (m1 m2 : MessageBuf) :
  0 <= id < 2 ^ 32 -> pending s !! id = Some c -> oneshots s !! c = Some o ->
  os_rx_dropped o = false ->
  exists s1 s2,
    Resolver_decode s (VU8 1 :: VU32 id :: m1) = Ok s1 /\
    Resolver_decode s1 (VU8 1 :: VU32 id :: m2) = Ok s2 /\
    oneshots s2 = oneshots s1 /\ pending s2 = pending s1 /\ incoming s2 = incoming s /\
    option_map os_slot (oneshots s2 !! c) = Some (Some m1).
Proof.
  intros Hid Hp Ho Hrx.
  destruct (Resolver_decode_deliver s id c o m1 Hid Hp Ho Hrx)
    as (s1 & Hd & Hpend & Hinc & _ & _ & Hc & _).
  exists s1. eexists. split; [exact Hd|].
  rewrite Resolver_decode_response by exact Hid. cbv zeta.
  rewrite Hpend, lookup_delete_eq.
  split; [reflexivity|]. cbn [oneshots pending incoming log set_pending].
  split; [reflexivity|]. split; [by rewrite delete_delete_eq|]. split; [exact Hinc|].
  rewrite Hc. reflexivity.
Qed.

(** Once a [Response] is dropped its table entry is gone, and a late
    response for its id is discarded: no handle receives it and the table
    and the [Incoming] queue stay as they are. *)
Theorem dropped_response_discarded (s : mux) (j : nat) (o : oneshot) (m : MessageBuf) :
  oneshots s !! j = Some o -> os_rx_dropped o = false -> 0 <= os_id o < 2 ^ 32 ->
  pending (Response_drop j s) = delete (os_id o) (pending s) /\
  exists s2, Resolver_decode (Response_drop j s) (VU8 1 :: VU32 (os_id o) :: m) = Ok s2 /\
    oneshots s2 = oneshots (Response_drop j s) /\
    pending s2 = pending (Response_drop j s) /\ incoming s2 = incoming s.
Proof.
  intros Hj Hrx Hid.
  assert (Hfx : pending (Response_drop j s) = delete (os_id o) (pending s) /\
                incoming (Response_drop j s) = incoming s).
  { unfold Response_drop. rewrite Hj, Hrx. cbv zeta.
    destruct (pending s !! os_id o) as [c|]; simpl drop_tx;
      [destruct (update_oneshot_fields c with_tx_dropped
                   (log (LogRemove (ByDrop j) (os_id o) (Some c))
                        (set_pending (delete (os_id o) (pending s)) s)))
         as (_ & Ep & _ & Ei & _);
       destruct (update_oneshot_fields j with_rx_dropped
                   (update_oneshot c with_tx_dropped
                      (log (LogRemove (ByDrop j) (os_id o) (Some c))
                           (set_pending (delete (os_id o) (pending s)) s))))
         as (_ & Ep' & _ & Ei' & _);
       rewrite Ep', Ei', Ep, Ei; done
      |destruct (update_oneshot_fields j with_rx_dropped
                   (log (LogRemove (ByDrop j) (os_id o) None)
                        (set_pending (delete (os_id o) (pending s)) s)))
         as (_ & Ep & _ & Ei & _);
       rewrite Ep, Ei; done]. }
  destruct Hfx as [Hpend Hinc]. split; [exact Hpend|].
  rewrite Resolver_decode_response by exact Hid. cbv zeta.
  rewrite Hpend, lookup_delete_eq. eexists. split; [reflexivity|].
  cbn [oneshots pending incoming log set_pending].
  split; [reflexivity|]. split; [by rewrite delete_delete_eq|]. exact Hinc.
Qed.



Lemma Resolver_decode_request (s : mux) (id : RequestId) (name : string) (m : MessageBuf) :
  0 <= id < 2 ^ 32 ->
  Resolver_decode s (VU8 0 :: VU32 id :: VStr name :: m) =
    Ok (incoming_send (Ok (mk_request_buf id name m)) s).
Proof.
  intros Hid. unfold Resolver_decode. rewrite pop_u8_cons by lia. cbv beta iota.
  unfold Type_from_u8. cbn [Z.eqb]. cbv beta iota.
  rewrite pop_u32_cons by exact Hid. reflexivity.
Qed.

(** The resolver loop hands incoming requests on in the order they were
    read: well-formed request frames read one after the other end up on
    [Incoming] as the same [RequestBuf]s in the same order, and the loop
    goes on with the next read; when the peer then closes the connection
    the loop stops and shuts the socket down. *)
Theorem Resolver_dispatch_requests (s : mux) (reqs : list RequestBuf) (rest : list read_result) :
  Forall (fun rb => 0 <= rb_id rb < 2 ^ 32) reqs ->
  Resolver_dispatch s (map request_read reqs ++ rest) =
    Resolver_dispatch (set_incoming (incoming s ++ map Ok reqs) s) rest /\
  Resolver_dispatch s (map request_read reqs ++ ReadEof :: rest) =
    mk_resolver_exit (set_incoming (incoming s ++ map Ok reqs) s) rest true true.
Proof.
  intros Hall.
  assert (H : forall rest', Resolver_dispatch s (map request_read reqs ++ rest') =
            Resolver_dispatch (set_incoming (incoming s ++ map Ok reqs) s) rest').
  { revert s. induction Hall as [|rb reqs Hrb Hall IH]; intros s rest'.
    - simpl. rewrite app_nil_r. by destruct s.
    - cbn [map app]. unfold request_read at 1. cbn [Resolver_dispatch].
      destruct rb as [id name m]. simpl in Hrb.
      rewrite Resolver_decode_request by exact Hrb. rewrite IH.
      unfold incoming_send, set_incoming. simpl. by rewrite <- app_assoc. }
  split; [apply H|]. rewrite H. reflexivity.
Qed.

(* ------------------------------------------------------------------ *)
(** ** No live response is canceled before the ids wrap *)

Lemma no_cancel_by (s s' : mux) :
  no_cancel s ->
  (forall k o, oneshots s' !! k = Some o ->
     oneshots s !! k = Some o \/ os_rx_dropped o = true \/ os_tx_dropped o = false \/
     os_slot o <> None) ->
  no_cancel s'.
Proof.
  intros H Hs k o Ho Hrx Htx.
  destruct (Hs k o Ho) as [E | [E | [E | E]]]; [by eapply H | congruence | congruence | done].
Qed.

Lemma no_cancel_init : no_cancel multiplex_init.
Proof. intros j o H. by destruct j. Qed.

Lemma no_cancel_request (s : mux) (evs : list event) (name : string) (r : value) :
  pairing_inv s evs -> no_cancel s -> Z.of_nat (count_requests evs) < 2 ^ 32 ->
  no_cancel (step s (EvRequest name r)).
Proof.
  intros Hinv Hnc Hlt.
  assert (Hrange : 0 <= next_id s < 2 ^ 32) by (rewrite (inv_count _ _ Hinv); lia).
  assert (Hmod : next_id s mod 2 ^ 32 = next_id s) by (apply Z.mod_small; lia).
  assert (Hnone : pending s !! next_id s = None).
  { destruct (pending s !! next_id s) as [c|] eqn:E; [|done].
    destruct (inv_pending _ _ Hinv _ _ E) as (k & Hk). apply (inv_ids _ _ Hinv) in Hk. lia. }
  unfold step, Outgoing_request, Outgoing_next_id. cbv beta iota zeta.
  rewrite Hmod.
  destruct (build_request (next_id s) name r) as [msg|pmsg]; simpl.
  - unfold pending_insert. simpl. rewrite Hnone. simpl.
    apply (no_cancel_by s); [done|]. intros k o Hk. simpl in Hk.
    apply lookup_app_Some in Hk as [Hk | [_ Hk]]; [by left|].
    apply list_lookup_singleton_Some in Hk as [_ <-]. right. right. by left.
  - apply (no_cancel_by s); [done|]. intros k o Hk. by left.
Qed.

Lemma no_cancel_drop (s : mux) (evs : list event) (j : nat) :
  pairing_inv s evs -> no_cancel s -> no_cancel (Response_drop j s).
Proof.
  intros Hinv Hnc. unfold Response_drop.
  destruct (oneshots s !! j) as [o|] eqn:Hj; [|done].
  destruct (os_rx_dropped o) eqn:Hrx; [done|]. cbv zeta.
  apply (no_cancel_by s); [done|]. intros k o' Hk.
  rewrite update_oneshot_lookup in Hk. case_decide as Hkj.
  - apply fmap_Some in Hk as (x & _ & ->). right. by left.
  - left. destruct (pending s !! os_id o) as [c|] eqn:Hc; simpl drop_tx in Hk.
    + pose proof (pending_owner s evs j c o Hinv Hj Hc) as ->.
      rewrite update_oneshot_lookup, decide_False in Hk by exact Hkj. exact Hk.
    + exact Hk.
Qed.

Lemma no_cancel_deliver (s : mux) (evs : list event) (k : nat) (res : result value value) :
  pairing_inv s evs -> no_cancel s -> no_cancel (step s (EvDeliver k res)).
Proof.
  intros Hinv Hnc. simpl.
  destruct (sent s !! k) as [f|] eqn:Hk; [|done].
  destruct (peer_response f res) as [g|] eqn:Hg; [|done].
  destruct (inv_sent _ _ Hinv k f Hk) as (j & id & name & p & Hkj & ->).
  apply peer_response_shape in Hg as [Hid ->].
  rewrite Resolver_decode_response by exact Hid. cbv zeta.
  destruct (pending s !! id) as [c|] eqn:Hc.
  - apply (no_cancel_by s); [done|]. intros k' o' Hk'.
    unfold oneshot_send in Hk'. cbn [oneshots log set_pending] in Hk'.
    destruct (oneshots s !! c) as [o|] eqn:Ho; [|by left].
    destruct (os_rx_dropped o) eqn:Hrx; simpl in Hk';
      rewrite update_oneshot_lookup in Hk'; case_decide; simplify_eq/=;
      try (left; exact Hk').
    + rewrite Ho in Hk'. simpl in Hk'. injection Hk' as <-. right. left. exact Hrx.
    + rewrite Ho in Hk'. simpl in Hk'. injection Hk' as <-. right. right. right. done.
  - apply (no_cancel_by s); [done|]. intros k' o' Hk'. by left.
Qed.

Lemma no_cancel_run (evs : list event) :
  Z.of_nat (count_requests evs) <= 2 ^ 32 -> no_cancel (run multiplex_init evs).
Proof.
  induction evs as [|ev evs IH] using rev_ind; intros Hle.
  - apply no_cancel_init.
  - pose proof (count_requests_app_le evs ev) as Hmono.
    assert (Hinv : pairing_inv (run multiplex_init evs) evs) by (apply pairing_inv_run; lia).
    rewrite run_snoc. specialize (IH ltac:(lia)).
    destruct ev as [name r | j | k res].
    + eapply no_cancel_request; [exact Hinv | exact IH |].
      rewrite count_requests_snoc in Hle. simpl in Hle. lia.
    + eapply no_cancel_drop; [exact Hinv | exact IH].
    + eapply no_cancel_deliver; [exact Hinv | exact IH].
Qed.

Lemma pop_err (t : ty) (m : MessageBuf) (e : io_error) : pop t m = Err e -> e = decoding_error.
Proof. unfold pop. destruct m as [|v m]; [|destruct (has_ty v t)]; by intros [= <-]. Qed.

(** As long as at most [2^32] requests were made on a multiplexer, polling
    a [Response] that is still held never reports "request canceled":
    it is not ready, or it holds the peer's answer (or a decoding error
    for it); [wait_unwrap] therefore never panics on a cancellation. *)
Theorem Response_never_canceled (evs : list event) (j : nat) (o : oneshot) (st et : ty) :
  Z.of_nat (count_requests evs) <= 2 ^ 32 ->
  oneshots (run multiplex_init evs) !! j = Some o -> os_rx_dropped o = false ->
  Response_poll (run multiplex_init evs) j st et <> IoError request_canceled.
Proof.
  intros Hle Hj Hrx. pose proof (no_cancel_run evs Hle j o Hj Hrx) as Hnc.
  unfold Response_poll. rewrite Hj.
  destruct (os_slot o) as [msg|] eqn:Hs.
  - destruct (pop (TResult st et) msg) as [[v rest]|err] eqn:Hp.
    + destruct v; discriminate.
    + apply pop_err in Hp as ->. discriminate.
  - destruct (os_tx_dropped o); [|discriminate]. by exfalso; apply Hnc.
Qed.

Lemma Response_never_canceled_witness :
  Z.of_nat (count_requests [EvRequest "Ping" (ping 1)]) <= 2 ^ 32 /\
  oneshots (run multiplex_init [EvRequest "Ping" (ping 1)]) !! 0%nat =
    Some (mk_oneshot None false false 0 0) /\
  Response_poll (run multiplex_init [EvRequest "Ping" (ping 1)]) 0 (TStruct "Pong") TUnit
    <> IoError request_canceled.
Proof.
  assert (Hc : Z.of_nat (count_requests [EvRequest "Ping" (ping 1)]) <= 2 ^ 32)
    by (vm_compute; discriminate).
  assert (Ho : oneshots (run multiplex_init [EvRequest "Ping" (ping 1)]) !! 0%nat =
               Some (mk_oneshot None false false 0 0)) by reflexivity.
  split; [exact Hc|]. split; [exact Ho|].
  exact (Response_never_canceled _ 0 _ (TStruct "Pong") TUnit Hc Ho eq_refl).
Defined.

(* ------------------------------------------------------------------ *)
(** ** Order of the releases of a [Dispatch] *)

Lemma ids_sorted_lookup (l : list State) :
  ids_sorted l ->
  forall i j a b, (i < j)%nat -> l !! i = Some a -> l !! j = Some b ->
    State_id a < State_id b.
Proof.
  induction l as [|x l IH]; [intros _ i j a b _ Ha; by rewrite lookup_nil in Ha|].
  intros [Hx Hl] i j a b Hij Ha Hb.
  destruct i as [|i]; destruct j as [|j]; try lia; simpl in Ha, Hb.
  - injection Ha as <-. eapply (Forall_lookup_1 _ _ _ _ Hx Hb).
  - eapply (IH Hl i j); [lia | exact Ha | exact Hb].
Qed.

(** When a connection's [Dispatch] is dropped, the [remove_executor]
    calls come after every call the connection made while it was served,
    one per token of its set, in strictly ascending order of the executor
    ids (the iteration order of the [BTreeSet]). *)
Theorem Dispatch_drop_ascending (c0 : coordinator) (evs : list stream_event)
  (d : Dispatch) (why : end_reason) (rest : list stream_event) :
  serve (Dispatch_new c0) evs = (d, why, rest) ->
  exists ids,
    calls (connection c0 evs) = calls (coord d) ++ map CallRemoveExecutor ids /\
    (forall id, In id ids <-> In (Executor id) (associated d)) /\
    (forall i j a b, (i < j)%nat -> ids !! i = Some a -> ids !! j = Some b -> a < b).
Proof.
  intros Hs.
  pose proof (conn_inv_serve c0 evs _ _ _ _ (conn_inv_new c0) Hs) as Hinv.
  exists (map State_id (associated d)). split; [|split].
  - unfold connection. rewrite Hs, Dispatch_drop_calls. unfold removal_calls.
    by rewrite map_map.
  - intros id. rewrite in_map_iff. split.
    + intros (x & Hx & H). destruct x as [i]. simpl in Hx. by subst.
    + intros H. by exists (Executor id).
  - intros i j a b Hij Ha Hb.
    rewrite list_lookup_fmap in Ha, Hb.
    destruct (associated d !! i) as [x|] eqn:Hx; [|done].
    destruct (associated d !! j) as [y|] eqn:Hy; [|done].
    injection Ha as <-. injection Hb as <-.
    exact (ids_sorted_lookup _ (ci_sorted _ _ Hinv) i j x y Hij Hx Hy).
Qed.

Lemma Dispatch_drop_ascending_witness :
  exists ids,
    calls (connection (mk_coordinator 7 []) [Item add_executor_req; Item add_executor_req]) =
      calls (coord (fst (fst (serve (Dispatch_new (mk_coordinator 7 []))
                                    [Item add_executor_req; Item add_executor_req])))) ++
      map CallRemoveExecutor ids /\
    (forall id, In id ids <-> In (Executor id)
       (associated (fst (fst (serve (Dispatch_new (mk_coordinator 7 []))
                                    [Item add_executor_req; Item add_executor_req]))))) /\
    (forall i j a b, (i < j)%nat -> ids !! i = Some a -> ids !! j = Some b -> a < b).
Proof.
  exact (Dispatch_drop_ascending (mk_coordinator 7 []) [Item add_executor_req; Item add_executor_req]
           (fst (fst (serve (Dispatch_new (mk_coordinator 7 []))
                            [Item add_executor_req; Item add_executor_req])))
           (snd (fst (serve (Dispatch_new (mk_coordinator 7 []))
                            [Item add_executor_req; Item add_executor_req])))
           (snd (serve (Dispatch_new (mk_coordinator 7 []))
                       [Item add_executor_req; Item add_executor_req]))
           eq_refl).
Defined.

(* ------------------------------------------------------------------ *)
(** ** The threads of [Network::channel] and [Listener::new] *)

(** The writer thread of a channel writes the queued frames in order,
    each one only after the previous write succeeded.  It stops at the
    first failing write and shuts the socket down, so every later frame is
    dropped; otherwise it is still writing, or it has written everything
    and exits (shutting down) exactly when all senders are gone. *)
Theorem channel_writer_in_order (q : list MessageBuf) (writes : list (result unit io_error))
    (closed : bool) :
  let w := channel_writer q writes closed in
  exists rest, q = fst w ++ rest /\
    (forall i, (i < length (fst w))%nat -> exists u, writes !! i = Some (Ok u)) /\
    ((rest = [] /\ snd w = closed) \/
     (rest <> [] /\ writes !! length (fst w) = None /\ snd w = false) \/
     (rest <> [] /\ (exists e, writes !! length (fst w) = Some (Err e)) /\ snd w = true)).
Proof.
  cbv zeta. revert writes.
  induction q as [|msg q IH]; intros writes; simpl.
  - exists []. split; [done|]. split; [intros i Hi; lia|]. by left.
  - destruct writes as [|[u|e] writes'].
    + exists (msg :: q). simpl. split; [done|]. split; [intros i Hi; lia|].
      right. left. done.
    + destruct (IH writes') as (rest & Hq & Hok & Hend).
      destruct (channel_writer q writes' closed) as [written shut] eqn:Hw. simpl in *.
      exists rest. split; [by rewrite Hq|]. split.
      * intros [|i] Hi; simpl; [by exists u|]. apply Hok. lia.
      * exact Hend.
    + exists (msg :: q). simpl. split; [done|]. split; [intros i Hi; lia|].
      right. right. split; [done|]. split; [by exists e|done].
Qed.

(** The reader thread of a channel hands on what it reads in order: a
    prefix of the reads, with an error only as the last item.  It shuts
    the socket down exactly when it has handed on a read error or when
    handing on a read failed because the [Receiver] was dropped. *)
Theorem channel_reader_until_error (reads : list (result MessageBuf io_error))
    (sends : list bool) :
  let r := channel_reader reads sends in
  exists k, fst r = take k reads /\
    (forall i m, (S i < length (fst r))%nat -> fst r !! i = Some m -> is_ok m = true) /\
    (snd r = true <->
       (exists m, In m (fst r) /\ is_ok m = false) \/
       (exists m, reads !! length (fst r) = Some m /\ sends !! length (fst r) = Some false)).
Proof.
  cbv zeta. revert sends.
  induction reads as [|m reads IH]; intros sends; simpl.
  - exists O. split; [done|]. split; [intros i x Hi; simpl in Hi; lia|].
    split; [discriminate|]. intros [(x & [] & _) | (x & Hx & _)]. simpl in Hx; discriminate.
  - destruct sends as [|[|] sends'].
    + exists O. split; [done|]. split; [intros i x Hi; simpl in Hi; lia|].
      split; [discriminate|]. intros [(x & [] & _) | (x & _ & Hx)]. discriminate.
    + destruct (is_ok m) eqn:Hm.
      * destruct (IH sends') as (k & Hk & Hok & Hshut).
        destruct (channel_reader reads sends') as [items shut] eqn:Hr. simpl in *.
        exists (S k). split; [by rewrite Hk|]. split.
        -- intros [|i] x Hi Hx; simpl in Hx; [by injection Hx as <-|].
           apply (Hok i x); [lia | exact Hx].
        -- rewrite Hshut. split.
           ++ intros [(x & Hx & Hxo) | H]; [left; exists x; by split; [right|] | by right].
           ++ intros [(x & [<- | Hx] & Hxo) | H]; [congruence | left; by exists x | by right].
      * exists 1%nat. split; [done|]. split; [intros i x Hi; simpl in Hi; lia|].
        split; [intros _; left; exists m; split; [left|]; done | done].
    + exists O. split; [done|]. split; [intros i x Hi; simpl in Hi; lia|].
      split; [intros _; right; by exists m | done].
Qed.

(** The accept thread of a [Listener] hands on one item per accepted
    connection, in order.  A failure to set up the channel of an accepted
    socket is handed on as an error and the thread goes on accepting; only
    a failing [accept] (handed on as well) or a dropped [Listener] ends
    it. *)
Theorem listener_accept_continues (accepts : list accept_result) (sends : list bool) :
  let r := listener_accept accepts sends in
  exists k, fst r = map accept_pair (take k accepts) /\
    (forall i a, (S i < k)%nat -> accepts !! i = Some a -> exists ch, a = Accepted ch) /\
    (snd r = true <->
       (exists e, In (AcceptErr e) (take k accepts)) \/
       (exists a, accepts !! k = Some a /\ sends !! k = Some false)).
Proof.
  cbv zeta. revert sends.
  induction accepts as [|a accepts IH]; intros sends; simpl.
  - exists O. split; [done|]. split; [intros i x Hi; lia|].
    split; [discriminate|]. intros [(e & He) | (x & Hx & _)]; [by destruct He|].
    simpl in Hx; discriminate.
  - destruct sends as [|[|] sends'].
    + exists O. split; [done|]. split; [intros i x Hi; lia|].
      split; [discriminate|]. intros [(e & [] ) | (x & _ & Hx)]. discriminate.
    + destruct a as [e | ch]; simpl.
      * exists 1%nat. split; [done|]. split; [intros i x Hi; lia|].
        split; [intros _; left; exists e; by left | done].
      * destruct (IH sends') as (k & Hk & Hacc & Hshut).
        destruct (listener_accept accepts sends') as [items ended] eqn:Hr. simpl in *.
        exists (S k). split; [by rewrite Hk|]. split.
        -- intros [|i] x Hi Hx; simpl in Hx; [injection Hx as <-; by exists ch|].
           apply (Hacc i x); [lia | exact Hx].
        -- rewrite Hshut. simpl. split.
           ++ intros [(e & He) | H]; [left; exists e; by right | by right].
           ++ intros [(e & [He | He]) | H]; [discriminate | left; by exists e | by right].
    + exists O. split; [done|]. split; [intros i x Hi; lia|].
      split; [intros _; right; by exists a | done].
Qed.

(* ------------------------------------------------------------------ *)
(** ** Instances of the properties above *)

Lemma request_frame_roundtrip_witness :
  Outgoing_request multiplex_init "Ping" (ping 1) = (one_request, Returned 0%nat) /\
  exists id f, id = next_id multiplex_init mod 2 ^ 32 /\
    sent one_request = sent multiplex_init ++ [f] /\
    Resolver_decode multiplex_init f =
      Ok (incoming_send (Ok (mk_request_buf id "Ping" [ping 1])) multiplex_init) /\
    (forall t, has_ty (ping 1) t = true ->
       RequestBuf_decode t (mk_request_buf id "Ping" [ping 1]) = Ok (ping 1, mk_responder id)).
Proof.
  assert (H : Outgoing_request multiplex_init "Ping" (ping 1) = (one_request, Returned 0%nat))
    by reflexivity.
  split; [exact H|]. exact (request_frame_roundtrip _ _ multiplex_init _ _ _ H).
Defined.

Lemma response_frame_roundtrip_witness :
  pending one_request !! 0 = Some 0%nat /\
  oneshots one_request !! 0%nat = Some (mk_oneshot None false false 0 0) /\
  exists g s', Responder_respond (mk_responder 0) (Ok (pong 2)) [] = Returned [g] /\
    Resolver_decode one_request g = Ok s' /\
    pending s' = delete 0 (pending one_request) /\ incoming s' = incoming one_request /\
    (forall k, k <> 0%nat -> oneshots s' !! k = oneshots one_request !! k) /\
    Response_poll s' 0 (TStruct "Pong") TUnit = Ready (pong 2) /\
    Response_wait_unwrap (Response_poll s' 0 (TStruct "Pong") TUnit) =
      Some (Returned (Ok (pong 2))).
Proof.
  assert (Hp : pending one_request !! 0 = Some 0%nat) by reflexivity.
  assert (Ho : oneshots one_request !! 0%nat = Some (mk_oneshot None false false 0 0))
    by reflexivity.
  split; [exact Hp|]. split; [exact Ho|].
  exact (response_frame_roundtrip one_request 0 0 _ (Ok (pong 2)) (TStruct "Pong") TUnit
           ltac:(lia) Hp Ho eq_refl eq_refl eq_refl).
Defined.

Lemma duplicate_response_ignored_witness :
  pending one_request !! 0 = Some 0%nat /\
  oneshots one_request !! 0%nat = Some (mk_oneshot None false false 0 0) /\
  exists s1 s2,
    Resolver_decode one_request [VU8 1; VU32 0; VOk (pong 2)] = Ok s1 /\
    Resolver_decode s1 [VU8 1; VU32 0; VOk (pong 3)] = Ok s2 /\
    oneshots s2 = oneshots s1 /\ pending s2 = pending s1 /\
    incoming s2 = incoming one_request /\
    option_map os_slot (oneshots s2 !! 0%nat) = Some (Some [VOk (pong 2)]).
Proof.
  assert (Hp : pending one_request !! 0 = Some 0%nat) by reflexivity.
  assert (Ho : oneshots one_request !! 0%nat = Some (mk_oneshot None false false 0 0))
    by reflexivity.
  split; [exact Hp|]. split; [exact Ho|].
  exact (duplicate_response_ignored one_request 0 0 _ [VOk (pong 2)] [VOk (pong 3)]
           ltac:(lia) Hp Ho eq_refl).
Defined.

Lemma dropped_response_discarded_witness :
  oneshots one_request !! 0%nat = Some (mk_oneshot None false false 0 0) /\
  pending (Response_drop 0 one_request) = delete 0 (pending one_request) /\
  exists s2, Resolver_decode (Response_drop 0 one_request) [VU8 1; VU32 0; VOk (pong 2)] = Ok s2 /\
    oneshots s2 = oneshots (Response_drop 0 one_request) /\
    pending s2 = pending (Response_drop 0 one_request) /\ incoming s2 = incoming one_request.
Proof.
  assert (Ho : oneshots one_request !! 0%nat = Some (mk_oneshot None false false 0 0))
    by reflexivity.
  split; [exact Ho|].
  exact (dropped_response_discarded one_request 0 _ [VOk (pong 2)] Ho eq_refl ltac:(simpl; lia)).
Defined.


Lemma Resolver_dispatch_requests_witness :
  Forall (fun rb => 0 <= rb_id rb < 2 ^ 32)
    [mk_request_buf 0 "Ping" [ping 1]; mk_request_buf 1 "Ping" [ping 2]] /\
  Resolver_dispatch multiplex_init
    (map request_read [mk_request_buf 0 "Ping" [ping 1]; mk_request_buf 1 "Ping" [ping 2]]
     ++ ReadEof :: []) =
    mk_resolver_exit
      (set_incoming (incoming multiplex_init ++
                     map Ok [mk_request_buf 0 "Ping" [ping 1]; mk_request_buf 1 "Ping" [ping 2]])
                    multiplex_init) [] true true.
Proof.
  assert (Hall : Forall (fun rb => 0 <= rb_id rb < 2 ^ 32)
    [mk_request_buf 0 "Ping" [ping 1]; mk_request_buf 1 "Ping" [ping 2]])
    by (repeat constructor; simpl; lia).
  split; [exact Hall|].
  exact (proj2 (Resolver_dispatch_requests multiplex_init _ [] Hall)).
Defined.
